(** * image-processor.lib: the variant-generation pipeline

    A shallow embedding of the TypeScript sources

    - [errors/image-processing.errors.ts]   (the error class hierarchy),
    - [utils/file-naming.utils.ts]          (FileNamingUtils),
    - [utils/image-validator.ts]            (ImageValidator),
    - [config/image-processing.config.ts]   (ImageProcessingConfig),
    - [services/image-pipeline.service.ts]  (ImagePipelineService),

    together with the properties the specification states about them.

    Modelling conventions.
    - A JS [string] is a [string] of 8-bit characters; [toLowerCase] is the
      ASCII one.
    - A JS [number] is kept abstract behind the class [JsNumber]: the code
      only multiplies numbers, compares them, tests their truthiness and
      renders them in template literals.  The instance [JsNumber_Z] covers
      the integer-valued numbers (rendered in decimal, as JS does below
      1e21).
    - A thrown value is an [Error] object: class, message, code and wrapped
      cause ([JsError]); [instanceof] follows the [extends] chain.
    - [async] code is sequential state passing over the world of the two
      injected collaborators (ImageProcessorService, StorageDriver); every
      call that reaches a collaborator is recorded in a call log.
    - Arrays held by ImageProcessingConfig live in a store of references, so
      that aliasing between the caller's arrays and the configuration's is
      visible. *)

From Stdlib Require Import ZArith String Ascii List DecimalString DecimalPos DecimalZ.
From stdpp Require Import gmap strings list fin_maps.

Open Scope Z_scope.

(* ===================================================================== *)
(** ** JS values: numbers, buffers, strings *)
(* ===================================================================== *)

(** The operations on [number] that the sources use. *)
Class JsNumber (num : Type) := {
  num_of_Z : Z → num;             (* integer literals, [buffer.length]    *)
  num_mul : num → num → num;      (* [a * b]                              *)
  num_gt : num → num → bool;      (* [a > b]                              *)
  num_truthy : num → bool;        (* ToBoolean: false for 0 and NaN       *)
  num_to_string : num → string    (* rendering in a template literal      *)
}.

(** Integer-valued numbers. *)
#[export] Instance JsNumber_Z : JsNumber Z := {
  num_of_Z z := z;
  num_mul := Z.mul;
  num_gt a b := b <? a;
  num_truthy z := negb (z =? 0);
  num_to_string z := NilZero.string_of_int (Z.to_int z)
}.

(** A Node [Buffer]; a parameter typed [Buffer] may still be [null] or
    [undefined] at run time ([None]). *)
Definition Buffer := list Byte.byte.

(** [s.lastIndexOf(c)]: index of the last occurrence, [-1] when absent. *)
Fixpoint lastIndexOf (c : ascii) (s : string) : Z :=
  match s with
  | EmptyString => -1
  | String a s' =>
      let r := lastIndexOf c s' in
      if 0 <=? r then r + 1
      else if Ascii.eqb a c then 0 else -1
  end.

(** [s.substring(start, end)] with JS's clamping and swapping of indices;
    [end] omitted means the length of the string. *)
Definition substring (s : string) (start : Z) (end_ : option Z) : string :=
  let len := Z.of_nat (String.length s) in
  let clamp n := Z.max 0 (Z.min n len) in
  let a := clamp start in
  let b := match end_ with Some e => clamp e | None => len end in
  String.substring (Z.to_nat (Z.min a b)) (Z.to_nat (Z.max a b - Z.min a b)) s.

Definition lower_ascii (a : ascii) : ascii :=
  let n := nat_of_ascii a in
  if ((65 <=? n) && (n <=? 90))%nat then ascii_of_nat (n + 32) else a.

Fixpoint toLowerCase (s : string) : string :=
  match s with
  | EmptyString => EmptyString
  | String a s' => String (lower_ascii a) (toLowerCase s')
  end.

(** [arr.includes(x)] on an array of strings. *)
Definition includes (arr : list string) (x : string) : bool :=
  existsb (String.eqb x) arr.

(** ToBoolean on a string: only the empty string is falsy. *)
Definition str_truthy (s : string) : bool := negb (String.eqb s "").

(* ===================================================================== *)
(** ** errors/image-processing.errors.ts *)
(* ===================================================================== *)

Inductive ErrorClass :=
| C_Error                        (* the built-in Error and its other subclasses *)
| C_ImageProcessingError
| C_UnsupportedImageFormatError
| C_ImageValidationError
| C_ImageProcessingFailedError
| C_StorageError.

#[export] Instance ErrorClass_eq_dec : EqDecision ErrorClass.
Proof. solve_decision. Defined.

(** The [extends] clauses. *)
Definition superclass (c : ErrorClass) : option ErrorClass :=
  match c with
  | C_Error => None
  | C_ImageProcessingError => Some C_Error
  | C_UnsupportedImageFormatError
  | C_ImageValidationError
  | C_ImageProcessingFailedError
  | C_StorageError => Some C_ImageProcessingError
  end.

(** An error object.  [code] is absent on errors that are not
    ImageProcessingErrors. *)
#[warnings="-register-all"]
Inductive JsError := mkJsError {
  err_class : ErrorClass;
  message : string;
  code : option string;
  originalError : option JsError
}.

Definition is_subclass (c d : ErrorClass) : bool :=
  bool_decide (c = d)
  || match superclass c with
     | Some p =>
         bool_decide (p = d)
         || match superclass p with
            | Some q => bool_decide (q = d)
            | None => false
            end
     | None => false
     end.

(** [error instanceof C] *)
Definition instanceof (error : JsError) (C : ErrorClass) : bool :=
  is_subclass (err_class error) C.

(** The constructors of the four concrete classes. *)
Definition UnsupportedImageFormatError (format : string) : JsError :=
  mkJsError C_UnsupportedImageFormatError
    ("Unsupported image format: " +:+ format) (Some "UNSUPPORTED_FORMAT") None.

Definition ImageValidationError (msg : string) : JsError :=
  mkJsError C_ImageValidationError msg (Some "VALIDATION_ERROR") None.

Definition ImageProcessingFailedError (msg : string) (cause : option JsError) : JsError :=
  mkJsError C_ImageProcessingFailedError msg (Some "PROCESSING_FAILED") cause.

Definition StorageError (msg : string) (cause : option JsError) : JsError :=
  mkJsError C_StorageError msg (Some "STORAGE_ERROR") cause.

(** What a JS TypeError looks like to the classes above: a plain Error. *)
Definition TypeError (msg : string) : JsError :=
  mkJsError C_Error msg None None.

(** Outcome of a synchronous call: it returns or it throws. *)
Inductive Completion (A : Type) :=
| Normal (a : A)
| Throw (error : JsError).
Arguments Normal {A} a.
Arguments Throw {A} error.

#[export] Instance Completion_ret : MRet Completion := λ A a, Normal a.
#[export] Instance Completion_bind : MBind Completion := λ A B f m,
  match m with
  | Normal a => f a
  | Throw e => Throw e
  end.

(** What a promise of the user's StorageDriver is rejected with.  The
    interface says nothing of it, and the pipeline reads its [message]: an
    object ([ReasonError]: an Error, or any other value with the [message]
    that a template literal renders for it), or [null] or [undefined], on
    which reading a property throws. *)
Inductive Reason :=
| ReasonError (error : JsError)
| ReasonNull
| ReasonUndefined.

(** How a promise settles. *)
Inductive Settled (A : Type) :=
| Fulfilled (a : A)
| Rejected (reason : Reason).
Arguments Fulfilled {A} a.
Arguments Rejected {A} reason.

(** [error.message] on a caught [error]. *)
Definition reason_message (reason : Reason) : Completion string :=
  match reason with
  | ReasonError error => Normal (message error)
  | ReasonNull =>
      Throw (TypeError "Cannot read properties of null (reading 'message')")
  | ReasonUndefined =>
      Throw (TypeError "Cannot read properties of undefined (reading 'message')")
  end.

(** [error as Error]: the caught value itself, whatever it is. *)
Definition reason_as_error (reason : Reason) : option JsError :=
  match reason with
  | ReasonError error => Some error
  | ReasonNull | ReasonUndefined => None
  end.

(* ===================================================================== *)
(** ** utils/file-naming.utils.ts (pure part) and utils/image-validator.ts *)
(* ===================================================================== *)

Section Utils.
Context {num : Type} `{JsNumber num}.

(** FileNamingUtils.getFileExtension / ImageValidator.getFileExtension
    (the two private copies are identical). *)
Definition getFileExtension (filename : string) : string :=
  let lastDotIndex := lastIndexOf "." filename in
  if lastDotIndex =? -1 then "" else substring filename lastDotIndex None.

(** FileNamingUtils.getBaseName *)
Definition getBaseName (filename : string) : string :=
  let lastDotIndex := lastIndexOf "." filename in
  if lastDotIndex =? -1 then filename else substring filename 0 (Some lastDotIndex).

(** FileNamingUtils.generateFileName; [dpr] omitted takes the default 1. *)
Definition generateFileName (originalName : string) (width : num)
    (format : string) (dpr : option num) : string :=
  let dpr := match dpr with Some d => d | None => num_of_Z 1 end in
  let baseName := getBaseName originalName in
  baseName +:+ "_" +:+ num_to_string width +:+ "w@" +:+ num_to_string dpr
    +:+ "x." +:+ format.

Definition SUPPORTED_MIME_TYPES : list string :=
  [ "image/jpeg"; "image/jpg"; "image/png"; "image/webp"; "image/avif";
    "image/gif"; "image/bmp"; "image/tiff"; "image/svg+xml" ].

Definition SUPPORTED_EXTENSIONS : list string :=
  [ ".jpg"; ".jpeg"; ".png"; ".webp"; ".avif"; ".gif"; ".bmp"; ".tiff"; ".svg" ].

(** ImageValidator.validateMimeType *)
Definition validateMimeType (mimeType : string) : Completion unit :=
  if negb (includes SUPPORTED_MIME_TYPES (toLowerCase mimeType))
  then Throw (UnsupportedImageFormatError mimeType)
  else Normal tt.

(** ImageValidator.validateExtension *)
Definition validateExtension (filename : string) : Completion unit :=
  let extension := getFileExtension filename in
  if negb (includes SUPPORTED_EXTENSIONS (toLowerCase extension))
  then Throw (UnsupportedImageFormatError extension)
  else Normal tt.

(** ImageValidator.validateFileSize; [maxSizeInBytes] omitted takes the
    default 10 * 1024 * 1024. *)
Definition validateFileSize (buffer : Buffer) (maxSizeInBytes : option num)
    : Completion unit :=
  let maxSizeInBytes :=
    match maxSizeInBytes with
    | Some m => m
    | None => num_of_Z (10 * 1024 * 1024)
    end in
  if num_gt (num_of_Z (Z.of_nat (length buffer))) maxSizeInBytes
  then Throw (ImageValidationError
                ("File size exceeds maximum allowed size of "
                 +:+ num_to_string maxSizeInBytes +:+ " bytes"))
  else Normal tt.

(** [!buffer || buffer.length === 0] *)
Definition buffer_missing (buffer : option Buffer) : bool :=
  match buffer with
  | None => true
  | Some b => (length b =? 0)%nat
  end.

(** ImageValidator.validateFile *)
Definition validateFile (buffer : option Buffer) (filename : string)
    (mimeType : option string) (maxSizeInBytes : option num) : Completion unit :=
  match buffer with
  | None => Throw (ImageValidationError "File buffer is empty")
  | Some b =>
      if (length b =? 0)%nat
      then Throw (ImageValidationError "File buffer is empty")
      else
        validateExtension filename ;;
        (match mimeType with
         | Some m => if str_truthy m then validateMimeType m else Normal tt
         | None => Normal tt
         end) ;;
        (match maxSizeInBytes with
         | Some m => if num_truthy m then validateFileSize b (Some m) else Normal tt
         | None => Normal tt
         end)
  end.

End Utils.

(* ===================================================================== *)
(** ** interfaces/image-processing.interface.ts *)
(* ===================================================================== *)

Record ImageSize (num : Type) := mkImageSize {
  width : num;
  height : option num
}.
Arguments mkImageSize {num} width height.
Arguments width {num} _.
Arguments height {num} _.

(** ['webp' | 'avif' | 'jpeg' | 'png'] *)
Inductive FormatType := webp | avif | jpeg | png.

#[export] Instance FormatType_eq_dec : EqDecision FormatType.
Proof. solve_decision. Defined.

(** The string a format type is at run time. *)
Definition format_key (t : FormatType) : string :=
  match t with
  | webp => "webp"
  | avif => "avif"
  | jpeg => "jpeg"
  | png => "png"
  end.

Record ImageFormat (num : Type) := mkImageFormat {
  type : FormatType;
  quality : option num
}.
Arguments mkImageFormat {num} type quality.
Arguments type {num} _.
Arguments quality {num} _.

(** services/image-processor.service.ts: ProcessedImage *)
Record ProcessedImage (num : Type) := mkProcessedImage {
  p_buffer : Buffer;
  p_format : string;
  p_width : num;
  p_height : num
}.
Arguments mkProcessedImage {num} p_buffer p_format p_width p_height.
Arguments p_buffer {num} _.

Record ImageProcessingResult := mkResult {
  original : string;
  generated : gmap string (list string)
}.

(** What the pipeline reads through the getters of its ImageProcessingConfig
    during one call: [config.sizes], [config.formats], [config.dpr.ratios]. *)
Record ConfigView (num : Type) := mkConfigView {
  sizes : list (ImageSize num);
  formats : list (ImageFormat num);
  ratios : list num
}.
Arguments mkConfigView {num} sizes formats ratios.
Arguments sizes {num} _.
Arguments formats {num} _.
Arguments ratios {num} _.

(* ===================================================================== *)
(** ** The collaborators and the asynchronous computations over them *)
(* ===================================================================== *)

(** One entry of the call log: a call that left the pipeline. *)
Inductive Call (num : Type) :=
| CallValidateImage (buffer : option Buffer)
| CallProcessImage (buffer : option Buffer) (size : ImageSize num)
    (format : ImageFormat num)
| CallUpload (path : string) (data : option Buffer)
| CallUuid
| CallConsoleError (msg : string) (error : JsError).
Arguments CallValidateImage {num} buffer.
Arguments CallProcessImage {num} buffer size format.
Arguments CallUpload {num} path data.
Arguments CallUuid {num}.
Arguments CallConsoleError {num} msg error.

(** The injected collaborators, as transitions of an outside world:
    [ImageProcessorService.validateImage] and [.processImage] (the
    transform), [StorageDriver.upload], and the [uuid] package. *)
Record Collaborators (num World : Type) := mkCollaborators {
  imageProcessor_validateImage :
    option Buffer → World → Completion bool * World;
  imageProcessor_processImage :
    option Buffer → ImageSize num → ImageFormat num → World →
    Completion (ProcessedImage num) * World;
  storageDriver_upload :
    string → option Buffer → World → Settled string * World;
  uuidv4 : World → string * World
}.
Arguments mkCollaborators {num World} _ _ _ _.
Arguments imageProcessor_validateImage {num World} _ _ _.
Arguments imageProcessor_processImage {num World} _ _ _ _ _.
Arguments storageDriver_upload {num World} _ _ _ _.
Arguments uuidv4 {num World} _ _.

Record PipeState (num World : Type) := mkPipeState {
  world : World;
  calls : list (Call num)
}.
Arguments mkPipeState {num World} world calls.
Arguments world {num World} _.
Arguments calls {num World} _.

Section Pipeline.
Context {num : Type} `{JsNumber num} {World : Type}.

Definition Async (A : Type) : Type :=
  PipeState num World → Completion A * PipeState num World.

#[export] Instance Async_ret : MRet Async := λ A a s, (Normal a, s).
#[export] Instance Async_bind : MBind Async := λ A B f m s,
  match m s with
  | (Normal a, s') => f a s'
  | (Throw e, s') => (Throw e, s')
  end.

Definition throw {A} (error : JsError) : Async A := λ s, (Throw error, s).

(** A synchronous call inside the [async] function. *)
Definition sync {A} (c : Completion A) : Async A := λ s, (c, s).

(** [try { body } catch (error) { handler }] *)
Definition try_catch {A} (body : Async A) (handler : JsError → Async A) : Async A :=
  λ s, match body s with
       | (Normal a, s') => (Normal a, s')
       | (Throw error, s') => handler error s'
       end.

(** [try { return await promise } catch (error) { handler }] on a promise
    of the storage driver. *)
Definition try_await {A} (promise : PipeState num World → Settled A * PipeState num World)
    (handler : Reason → Async A) : Async A :=
  λ s, match promise s with
       | (Fulfilled a, s') => (Normal a, s')
       | (Rejected reason, s') => handler reason s'
       end.

(** [for (const x of xs) { body }], the loop's variables threaded as [acc]. *)
Fixpoint for_of {X S} (xs : list X) (body : X → S → Async S) (acc : S) : Async S :=
  match xs with
  | [] => mret acc
  | x :: xs' => acc' ← body x acc; for_of xs' body acc'
  end.

Definition log_call (c : Call num) (s : PipeState num World) : PipeState num World :=
  mkPipeState (world s) (calls s ++ [c]).

Variable deps : Collaborators num World.

Definition call_validateImage (buffer : option Buffer) : Async bool :=
  λ s, let '(r, w) := imageProcessor_validateImage deps buffer (world s) in
       (r, mkPipeState w (calls s ++ [CallValidateImage buffer])).

Definition call_processImage (buffer : option Buffer) (size : ImageSize num)
    (format : ImageFormat num) : Async (ProcessedImage num) :=
  λ s, let '(r, w) := imageProcessor_processImage deps buffer size format (world s) in
       (r, mkPipeState w (calls s ++ [CallProcessImage buffer size format])).

Definition call_upload (path : string) (data : option Buffer)
    : PipeState num World → Settled string * PipeState num World :=
  λ s, let '(r, w) := storageDriver_upload deps path data (world s) in
       (r, mkPipeState w (calls s ++ [CallUpload path data])).

Definition call_uuidv4 : Async string :=
  λ s, let '(r, w) := uuidv4 deps (world s) in
       (Normal r, mkPipeState w (calls s ++ [CallUuid])).

Definition console_error (msg : string) (error : JsError) : Async unit :=
  λ s, (Normal tt, log_call (CallConsoleError msg error) s).

(* --------------------------------------------------------------------- *)
(** *** utils/file-naming.utils.ts (the part that draws a uuid) *)

(** FileNamingUtils.generateOriginalFileName *)
Definition generateOriginalFileName (originalName : string) : Async string :=
  uuid ← call_uuidv4;
  let extension := getFileExtension originalName in
  mret (uuid +:+ extension).

(** FileNamingUtils.generateOriginalPath; [basePath] omitted takes the
    default ['/uploads/originals']. *)
Definition generateOriginalPath (originalName : string) (basePath : option string)
    : Async string :=
  let basePath := match basePath with Some b => b | None => "/uploads/originals" end in
  fileName ← generateOriginalFileName originalName;
  mret (basePath +:+ "/" +:+ fileName).

(* --------------------------------------------------------------------- *)
(** *** services/image-pipeline.service.ts *)

(** ImagePipelineService.uploadFile.  The template literal is evaluated
    before the StorageError is built: on a rejection with [null] or
    [undefined] what leaves the [catch] is the TypeError of
    [error.message]. *)
Definition uploadFile (filename : string) (buffer : option Buffer) : Async string :=
  try_await (call_upload filename buffer)
    (λ error,
       msg ← sync (reason_message error);
       throw (StorageError
                ("Failed to upload file " +:+ filename +:+ ": " +:+ msg)
                (reason_as_error error))).

(** [const actualSize = { width: size.width * dprRatio,
      height: size.height ? size.height * dprRatio : undefined }] *)
Definition actualSize (size : ImageSize num) (dprRatio : num) : ImageSize num :=
  mkImageSize
    (num_mul (width size) dprRatio)
    (match height size with
     | Some h => if num_truthy h then Some (num_mul h dprRatio) else None
     | None => None
     end).

(** [generatedFiles[key].push(path)]; on a missing key the receiver is
    [undefined] and the call throws a TypeError. *)
Definition push_generated (generatedFiles : gmap string (list string))
    (key path : string) : Async (gmap string (list string)) :=
  match generatedFiles !! key with
  | Some paths => mret (<[key := paths ++ [path]]> generatedFiles)
  | None => throw (TypeError "Cannot read properties of undefined (reading 'push')")
  end.

(** The body of the inner [try] of processImage, for one
    (size, format, dprRatio). *)
Definition processVariant (buffer : option Buffer) (originalFilename : string)
    (size : ImageSize num) (format : ImageFormat num) (dprRatio : num)
    (generatedFiles : gmap string (list string))
    : Async (gmap string (list string)) :=
  processedImage ← call_processImage buffer (actualSize size dprRatio) format;
  let generatedFileName :=
    generateFileName originalFilename (width size) (format_key (type format))
      (Some dprRatio) in
  generatedPath ← uploadFile generatedFileName (Some (p_buffer processedImage));
  push_generated generatedFiles (format_key (type format)) generatedPath.

(** The inner [catch]: log and carry on. *)
Definition variant_failed (size : ImageSize num) (format : ImageFormat num)
    (dprRatio : num) (error : JsError) : Async unit :=
  console_error
    ("Failed to process image for size " +:+ num_to_string (width size)
     +:+ ", format " +:+ format_key (type format)
     +:+ ", DPR " +:+ num_to_string dprRatio +:+ ":")
    error.

(** [for (const format of this.config.formats) generatedFiles[format.type] = []] *)
Definition init_generated (fmts : list (ImageFormat num)) : gmap string (list string) :=
  foldl (λ generatedFiles format, <[format_key (type format) := []]> generatedFiles)
    ∅ fmts.

(** One turn of the innermost loop: the [try] and its [catch]. *)
Definition variant_step (buffer : option Buffer) (originalFilename : string)
    (size : ImageSize num) (format : ImageFormat num) (dprRatio : num)
    (generatedFiles : gmap string (list string))
    : Async (gmap string (list string)) :=
  try_catch
    (processVariant buffer originalFilename size format dprRatio generatedFiles)
    (λ error,
       variant_failed size format dprRatio error ;;
       mret generatedFiles).

(** The three nested loops. *)
Definition generate_variants (config : ConfigView num) (buffer : option Buffer)
    (originalFilename : string) (generatedFiles : gmap string (list string))
    : Async (gmap string (list string)) :=
  for_of (sizes config) (λ size,
    for_of (formats config) (λ format,
      for_of (ratios config) (λ dprRatio,
        variant_step buffer originalFilename size format dprRatio)))
    generatedFiles.

(** The outer [catch] of processImage. *)
Definition pipeline_catch {A} (error : JsError) : Async A :=
  if instanceof error C_StorageError || instanceof error C_ImageProcessingFailedError
  then throw error
  else throw (ImageProcessingFailedError
                ("Pipeline processing failed: " +:+ message error) (Some error)).

(** The outer [try] block of processImage. *)
Definition processImage_try (config : ConfigView num) (buffer : option Buffer)
    (originalFilename : string) (mimeType : option string)
    (maxSizeInBytes : option num) : Async ImageProcessingResult :=
  sync (validateFile buffer originalFilename mimeType maxSizeInBytes) ;;
  isValidImage ← call_validateImage buffer;
  if negb isValidImage
  then throw (ImageProcessingFailedError "Invalid image file" None)
  else
    originalPath ← generateOriginalPath originalFilename None;
    uploadFile originalPath buffer ;;
    let generatedFiles := init_generated (formats config) in
    generatedFiles ← generate_variants config buffer originalFilename generatedFiles;
    mret (mkResult originalPath generatedFiles).

(** ImagePipelineService.processImage *)
Definition processImage (config : ConfigView num) (buffer : option Buffer)
    (originalFilename : string) (mimeType : option string)
    (maxSizeInBytes : option num) : Async ImageProcessingResult :=
  try_catch
    (processImage_try config buffer originalFilename mimeType maxSizeInBytes)
    pipeline_catch.

(** Steps of processImage up to and including the upload of the original:
    validation, the decodability check, the original's path, its upload. *)
Definition store_original (buffer : option Buffer) (originalFilename : string)
    (mimeType : option string) (maxSizeInBytes : option num) : Async string :=
  sync (validateFile buffer originalFilename mimeType maxSizeInBytes) ;;
  isValidImage ← call_validateImage buffer;
  if negb isValidImage
  then throw (ImageProcessingFailedError "Invalid image file" None)
  else
    originalPath ← generateOriginalPath originalFilename None;
    uploadFile originalPath buffer ;;
    mret originalPath.

End Pipeline.

(* ===================================================================== *)
(** ** config/image-processing.config.ts: the [sizes] axis *)
(* ===================================================================== *)

(** Arrays and the size objects they hold are reached through references:
    an array is a list of references to size objects.  [_formats] and [_dpr]
    are handled by the same code, field for field. *)
Definition ref := positive.

Record Store (num : Type) := mkStore {
  arrays : gmap ref (list ref);
  objects : gmap ref (ImageSize num)
}.
Arguments mkStore {num} arrays objects.
Arguments arrays {num} _.
Arguments objects {num} _.

(** The instance: its private field [_sizes] refers to an array. *)
Record ImageProcessingConfig := mkConfig {
  _sizes : ref
}.

Section Config.
Context {num : Type}.

(** An array literal or spread [[...elems]]: a new array. *)
Definition alloc_array (elems : list ref) (σ : Store num) : ref * Store num :=
  let r := fresh (dom (arrays σ)) in
  (r, mkStore (<[r := elems]> (arrays σ)) (objects σ)).

(** An object literal [{ width, height }]: a new object. *)
Definition alloc_object (size : ImageSize num) (σ : Store num) : ref * Store num :=
  let r := fresh (dom (objects σ)) in
  (r, mkStore (arrays σ) (<[r := size]> (objects σ))).

(** [constructor(config)] when [config.sizes] is given:
    [this._sizes = config.sizes], the caller's array itself. *)
Definition new_config (sizes : ref) : ImageProcessingConfig := mkConfig sizes.

(** [get sizes() { return [...this._sizes] }]; [None] stands for the
    TypeError of spreading what is not an array. *)
Definition get_sizes (this : ImageProcessingConfig) (σ : Store num)
    : option (ref * Store num) :=
  elems ← arrays σ !! _sizes this;
  Some (alloc_array elems σ).

(** [setSizes(sizes) { this._sizes = [...sizes]; return this }] *)
Definition setSizes (this : ImageProcessingConfig) (sizes : ref) (σ : Store num)
    : option (ImageProcessingConfig * Store num) :=
  elems ← arrays σ !! sizes;
  let '(r, σ') := alloc_array elems σ in
  Some (mkConfig r, σ').

(** [addSize(size) { this._sizes.push(size); return this }] *)
Definition addSize (this : ImageProcessingConfig) (size : ref) (σ : Store num)
    : option (ImageProcessingConfig * Store num) :=
  elems ← arrays σ !! _sizes this;
  Some (this, mkStore (<[_sizes this := elems ++ [size]]> (arrays σ)) (objects σ)).

(** [arr.push(x)] by a caller holding [arr]. *)
Definition array_push (arr x : ref) (σ : Store num) : Store num :=
  mkStore (alter (λ elems, elems ++ [x]) arr (arrays σ)) (objects σ).

(** [arr[i].width = w] by a caller holding the object. *)
Definition object_set_width (o : ref) (w : num) (σ : Store num) : Store num :=
  mkStore (arrays σ) (alter (λ size, mkImageSize w (height size)) o (objects σ)).

(** The value of an array: the sizes its elements refer to. *)
Definition array_value (arr : ref) (σ : Store num) : option (list (ImageSize num)) :=
  elems ← arrays σ !! arr;
  mapM (λ o, objects σ !! o) elems.

(** What reading [config.sizes] gives: the value of the array the getter
    returns. *)
Definition read_sizes (this : ImageProcessingConfig) (σ : Store num)
    : option (list (ImageSize num)) :=
  '(r, σ') ← get_sizes this σ;
  array_value r σ'.

(** A mutation of the array [arr] takes [σ] to [σ']: any other array is
    as it was, and so is every object that existed (new ones may have been
    created to be stored in [arr]). *)
Definition mutates_array (arr : ref) (σ σ' : Store num) : Prop :=
  (∀ a, a ≠ arr → arrays σ' !! a = arrays σ !! a)
  ∧ (∀ o size, objects σ !! o = Some size → objects σ' !! o = Some size).

End Config.

(* ===================================================================== *)
(** ** The specification's vocabulary, and the loops turn by turn *)
(* ===================================================================== *)

(** [c] occurs in [s]. *)
Fixpoint contains (c : ascii) (s : string) : bool :=
  match s with
  | EmptyString => false
  | String a s' => Ascii.eqb a c || contains c s'
  end.

(** "First failing check's error propagates; no aggregation." *)
Fixpoint first_failure (checks : list (Completion unit)) : Completion unit :=
  match checks with
  | [] => Normal tt
  | Normal _ :: rest => first_failure rest
  | Throw error :: _ => Throw error
  end.

Section Spec.
Context {num : Type} `{JsNumber num} {World : Type}.
Variable deps : Collaborators num World.

(** The constituent checks that the composite check runs on a non-empty
    buffer [b]: the extension check always, the MIME-type check for a
    supplied (and truthy) [mimeType], the size check for a supplied (and
    truthy) [maxBytes]. *)
Definition checks_run (b : Buffer) (filename : string) (mimeType : option string)
    (maxBytes : option num) : list (Completion unit) :=
  [validateExtension filename]
  ++ match mimeType with
     | Some m => if str_truthy m then [validateMimeType m] else []
     | None => []
     end
  ++ match maxBytes with
     | Some m => if num_truthy m then [validateFileSize b (Some m)] else []
     | None => []
     end.

Definition Tuple : Type := ImageSize num * ImageFormat num * num.

Definition tuple_key (t : Tuple) : string := format_key (type t.1.2).

(** The format types of a list of formats, as the keys they are. *)
Definition format_keys (fmts : list (ImageFormat num)) : list string :=
  (λ format, format_key (type format)) <$> fmts.

(** The combination space: sizes x formats x dpr ratios, size-major,
    format-middle, dpr-minor. *)
Definition combinations (config : ConfigView num) : list Tuple :=
  size ← sizes config; format ← formats config; dprRatio ← ratios config;
  [(size, format, dprRatio)].

(** Steps 5a-5d for one tuple, in the specification's words and on the
    capabilities themselves: (b) Transform produces the variant at the
    effective size, (d) Storage is asked to write its bytes at the variant
    name.  The task gives the path that Storage returned, or nothing when
    (b) or (d) fails. *)
Definition spec_task (buffer : option Buffer) (originalFilename : string)
    (t : Tuple) (w : World) : option string * World :=
  let '(size, format, dprRatio) := t in
  match imageProcessor_processImage deps buffer (actualSize size dprRatio) format w with
  | (Normal variant, w1) =>
      match storageDriver_upload deps
              (generateFileName originalFilename (width size)
                 (format_key (type format)) (Some dprRatio))
              (Some (p_buffer variant)) w1 with
      | (Fulfilled path, w2) => (Some path, w2)
      | (Rejected _, w2) => (None, w2)
      end
  | (Throw _, w1) => (None, w1)
  end.

(** "Run each tuple's work as an independent fallible task, collect
    (tuple, outcome) pairs": the tasks in iteration order, each from the
    world the one before it left. *)
Fixpoint spec_outcomes (buffer : option Buffer) (originalFilename : string)
    (tuples : list Tuple) (w : World) : list (Tuple * option string) * World :=
  match tuples with
  | [] => ([], w)
  | t :: rest =>
      let '(outcome, w1) := spec_task buffer originalFilename t w in
      let '(outcomes, w2) := spec_outcomes buffer originalFilename rest w1 in
      ((t, outcome) :: outcomes, w2)
  end.

(** "Filter to successes when building generated": the returned paths of
    the successful tuples of format type [key], in iteration order. *)
Definition spec_paths (key : string) (outcomes : list (Tuple * option string))
    : list string :=
  flat_map (λ '(t, outcome),
              match outcome with
              | Some path => if bool_decide (tuple_key t = key) then [path] else []
              | None => []
              end) outcomes.

(** The code's turn for one tuple without its bookkeeping: what the inner
    [try] of processImage runs up to the push -- the transform, then
    uploadFile -- with what it returns or throws. *)
Definition variant_task (buffer : option Buffer) (originalFilename : string)
    (t : Tuple) : Async string :=
  let '(size, format, dprRatio) := t in
  processedImage ← call_processImage deps buffer (actualSize size dprRatio) format;
  uploadFile deps
    (generateFileName originalFilename (width size) (format_key (type format))
       (Some dprRatio))
    (Some (p_buffer processedImage)).

(** The code's turns for [tuples], in order, each with its [catch] (a
    failure goes to the log), and what each returned or threw. *)
Fixpoint settle (buffer : option Buffer) (originalFilename : string)
    (tuples : list Tuple) (s : PipeState num World)
    : list (Tuple * Completion string) * PipeState num World :=
  match tuples with
  | [] => ([], s)
  | t :: rest =>
      let '(outcome, s1) := variant_task buffer originalFilename t s in
      let s2 :=
        match outcome with
        | Normal _ => s1
        | Throw error => (variant_failed t.1.1 t.1.2 t.2 error s1).2
        end in
      let '(outcomes, s3) := settle buffer originalFilename rest s2 in
      ((t, outcome) :: outcomes, s3)
  end.

(** What a turn of the code came to, as an outcome of the specification:
    the path it returned, or nothing when it threw. *)
Definition path_of (outcome : Completion string) : option string :=
  match outcome with
  | Normal path => Some path
  | Throw _ => None
  end.

(** The paths that the turns of format type [key] returned, in iteration
    order. *)
Definition successes (key : string) (outcomes : list (Tuple * Completion string))
    : list string :=
  flat_map (λ '(t, outcome),
              match outcome with
              | Normal path => if bool_decide (tuple_key t = key) then [path] else []
              | Throw _ => []
              end) outcomes.

(** One key per configured format type, holding the paths that the turns
    of that type returned. *)
Definition collect_generated (fmts : list (ImageFormat num))
    (outcomes : list (Tuple * Completion string)) : gmap string (list string) :=
  foldr (λ format generatedFiles,
           <[format_key (type format) :=
               successes (format_key (type format)) outcomes]> generatedFiles)
    ∅ fmts.

(** The variant paths of format type [key] when nothing fails and the
    storage answers [stored name] for [name]: one per (size, format of
    that type, ratio), size-major. *)
Definition all_variants (stored : string → string) (config : ConfigView num)
    (originalFilename key : string) : list string :=
  size ← sizes config;
  format ← filter (λ format, format_key (type format) = key) (formats config);
  dprRatio ← ratios config;
  [stored (generateFileName originalFilename (width size) key (Some dprRatio))].

(** The stored path of tuple [t]'s variant under such a storage. *)
Definition stored_variant (stored : string → string) (originalFilename : string)
    (t : Tuple) : string :=
  stored (generateFileName originalFilename (width t.1.1) (tuple_key t) (Some t.2)).

(** The same when the configured format types are pairwise distinct: one
    path per (size, ratio), all ratios of a size before the next size. *)
Definition size_major_variants (stored : string → string) (config : ConfigView num)
    (originalFilename key : string) : list string :=
  size ← sizes config;
  dprRatio ← ratios config;
  [stored (generateFileName originalFilename (width size) key (Some dprRatio))].

(** What the outer [catch] of processImage throws for a caught [error]. *)
Definition rethrown (error : JsError) : JsError :=
  if instanceof error C_StorageError || instanceof error C_ImageProcessingFailedError
  then error
  else ImageProcessingFailedError
         ("Pipeline processing failed: " +:+ message error) (Some error).

Definition is_transform_call (c : Call num) : bool :=
  match c with
  | CallProcessImage _ _ _ => true
  | _ => false
  end.

End Spec.

(* ===================================================================== *)
(** ** The collaborators of services/image-pipeline.service.spec.ts *)
(* ===================================================================== *)

Module Mock.

(** MockStorageDriver's [files] map, and a counter standing for the
    entropy that [uuidv4] draws from. *)
Record World := mkWorld {
  files : gmap string (option Buffer);
  uuid_counter : Z
}.

Definition processed : Buffer := [Byte.x70; Byte.x72; Byte.x6f; Byte.x63].

(** The mocked ImageProcessorService and MockStorageDriver.  [bad_variant]
    and [bad_path] select the calls that reject, the storage's with
    [reason]; with both constantly [false] these are the mocks of
    [beforeEach]. *)
Definition deps_rejecting (reason : Reason)
    (bad_variant : ImageSize Z → ImageFormat Z → bool)
    (bad_path : string → bool) : Collaborators Z World :=
  mkCollaborators
    (λ _ w, (Normal true, w))
    (λ _ size format w,
       if bad_variant size format
       then (Throw (mkJsError C_Error "Processing failed" None None), w)
       else (Normal (mkProcessedImage processed (format_key (type format))
                       (width size)
                       (match height size with
                        | Some h => if num_truthy h then h else 0
                        | None => 0
                        end)), w))
    (λ path data w,
       if bad_path path
       then (Rejected reason, w)
       else (Fulfilled path, mkWorld (<[path := data]> (files w)) (uuid_counter w)))
    (λ w, ("uuid" +:+ num_to_string (uuid_counter w),
           mkWorld (files w) (uuid_counter w + 1))).

(** The rejections of the tests: [mockRejectedValue(new Error('Storage
    failed'))]. *)
Definition deps : (ImageSize Z → ImageFormat Z → bool) → (string → bool)
    → Collaborators Z World :=
  deps_rejecting (ReasonError (mkJsError C_Error "Storage failed" None None)).

Definition ok2 {A B} (_ : A) (_ : B) : bool := false.
Definition ok1 {A} (_ : A) : bool := false.

Definition start : PipeState Z World := mkPipeState (mkWorld ∅ 0) [].

(** [new ImageProcessingConfig()]: the defaults. *)
Definition default_config : ConfigView Z :=
  mkConfigView
    [mkImageSize 320 None; mkImageSize 640 None; mkImageSize 1024 None]
    [mkImageFormat webp (Some 80); mkImageFormat avif (Some 80)]
    [1; 2; 3].

(** The configuration of the specification's worked example. *)
Definition example_config : ConfigView Z :=
  mkConfigView
    [mkImageSize 320 None; mkImageSize 640 None]
    [mkImageFormat webp None; mkImageFormat avif None]
    [1; 2; 3].

Definition jpg_bytes : Buffer := [Byte.xff; Byte.xd8; Byte.xff].

(** A transform that fails for the tuple (640, avif, 2) alone: the only
    request for an avif at effective width 1280. *)
Definition fails_640_avif_2 (size : ImageSize Z) (format : ImageFormat Z) : bool :=
  (width size =? 1280) && bool_decide (type format = avif).

(** A storage that fails for the variant (320, webp, 3) alone. *)
Definition fails_320_webp_3 (path : string) : bool :=
  String.eqb path "pic_320w@3x.webp".

(** Two configured formats of one type. *)
Definition twice_webp_config : ConfigView Z :=
  mkConfigView
    [mkImageSize 320 None]
    [mkImageFormat webp (Some 80); mkImageFormat webp (Some 50)]
    [1].

(** An empty sizes axis. *)
Definition no_sizes_config : ConfigView Z :=
  mkConfigView [] [mkImageFormat webp (Some 80); mkImageFormat avif (Some 80)] [1; 2; 3].

(** The caller's [const newSizes = [{ width: 100 }]] of the configuration's
    tests, next to the array of a configuration built earlier. *)
Definition caller_store : Store Z :=
  mkStore
    {[ 1%positive := [1%positive]; 2%positive := [2%positive] ]}
    {[ 1%positive := mkImageSize 100 None; 2%positive := mkImageSize 320 None ]}.

Definition caller_array : ref := 1%positive.

Definition config0 : ImageProcessingConfig := mkConfig 2%positive.

End Mock.

(* ===================================================================== *)
(** ** The rest of the sources *)
(* ===================================================================== *)

(** The two equalities on [number] that the configuration uses:
    [a !== b] is the negation of [num_strict_eq], and [arr.includes(x)]
    compares with SameValueZero. *)
Class JsNumberEq (num : Type) := {
  num_strict_eq : num → num → bool;
  num_same_value_zero : num → num → bool
}.

#[export] Instance JsNumberEq_Z : JsNumberEq Z := {
  num_strict_eq := Z.eqb;
  num_same_value_zero := Z.eqb
}.

(** Code outside the pipeline's call log: a transition of the world that
    returns or throws. *)
Definition IO (World A : Type) : Type := World → Completion A * World.

Definition io_ret {World A} (a : A) : IO World A := λ w, (Normal a, w).

Definition io_bind {World A B} (f : A → IO World B) (m : IO World A) : IO World B :=
  λ w, match m w with
       | (Normal a, w') => f a w'
       | (Throw e, w') => (Throw e, w')
       end.

Definition io_throw {World A} (error : JsError) : IO World A := λ w, (Throw error, w).

(** [try { body } catch (error) { handler }] *)
Definition io_try {World A} (body : IO World A) (handler : JsError → IO World A)
    : IO World A :=
  λ w, match body w with
       | (Normal a, w') => (Normal a, w')
       | (Throw error, w') => handler error w'
       end.

(** [try { return await promise } catch (error) { handler }] on a promise
    of the storage driver. *)
Definition io_try_await {World A} (promise : World → Settled A * World)
    (handler : Reason → IO World A) : IO World A :=
  λ w, match promise w with
       | (Fulfilled a, w') => (Normal a, w')
       | (Rejected reason, w') => handler reason w'
       end.

(* --------------------------------------------------------------------- *)
(** *** config/image-processing.config.ts: removeSize and the dpr ratios *)

Section ConfigMore.
Context {num : Type} `{JsNumberEq num}.

(** [removeSize(width) {
      this._sizes = this._sizes.filter(size => size.width !== width);
      return this }]: the elements kept go into a new array. *)
Definition removeSize (this : ImageProcessingConfig) (w : num) (σ : Store num)
    : option (ImageProcessingConfig * Store num) :=
  elems ← arrays σ !! _sizes this;
  held ← mapM (λ o, size ← objects σ !! o; Some (o, size)) elems;
  let kept := filter (λ p, num_strict_eq (width p.2) w = false) held in
  let '(r, σ') := alloc_array (kept.*1) σ in
  Some (mkConfig r, σ').

(** [_dpr.ratios] is an array of numbers that no caller ever holds: the
    constructor, [setDPR] and the getter all copy it.  It is kept as the
    list of its elements. *)

(** [arr.includes(x)] on an array of numbers. *)
Definition includes_num (arr : list num) (x : num) : bool :=
  existsb (num_same_value_zero x) arr.

(** [addDPRRatio(ratio) {
      if (!this._dpr.ratios.includes(ratio)) this._dpr.ratios.push(ratio);
      return this }] *)
Definition addDPRRatio (dprRatios : list num) (ratio : num) : list num :=
  if negb (includes_num dprRatios ratio) then dprRatios ++ [ratio] else dprRatios.

(** [removeDPRRatio(ratio) {
      this._dpr.ratios = this._dpr.ratios.filter(r => r !== ratio);
      return this }] *)
Definition removeDPRRatio (dprRatios : list num) (ratio : num) : list num :=
  filter (λ r, num_strict_eq r ratio = false) dprRatios.

(** [_formats], read as the value of the array.
    [addFormat(format) { this._formats.push(format); return this }] takes
    whatever it is given, a type already configured included. *)
Definition addFormat (fmts : list (ImageFormat num)) (format : ImageFormat num)
    : list (ImageFormat num) :=
  fmts ++ [format].

(** [removeFormat(type) {
      this._formats = this._formats.filter(format => format.type !== type);
      return this }] *)
Definition removeFormat (fmts : list (ImageFormat num)) (t : FormatType)
    : list (ImageFormat num) :=
  filter (λ format, type format ≠ t) fmts.

End ConfigMore.

(* --------------------------------------------------------------------- *)
(** *** services/image-processor.service.ts *)

(** What the service reads of [sharp.Metadata]. *)
Record Metadata (num : Type) := mkMetadata {
  m_width : option num;
  m_height : option num
}.
Arguments mkMetadata {num} m_width m_height.
Arguments m_width {num} _.
Arguments m_height {num} _.

(** The [sharp] package, as the service uses it:
    [sharp_toBuffer input width height type quality] is
    [sharp(input).resize(width, height, { fit: 'inside',
       withoutEnlargement: true }).<type>({ quality }).toBuffer()],
    [height] being [null] for [None]; [sharp_metadata input] is
    [sharp(input).metadata()]. *)
Record Sharp (num World : Type) := mkSharp {
  sharp_toBuffer :
    option Buffer → num → option num → FormatType → num → IO World Buffer;
  sharp_metadata : option Buffer → IO World (Metadata num)
}.
Arguments mkSharp {num World} _ _.
Arguments sharp_toBuffer {num World} _ _ _ _ _ _.
Arguments sharp_metadata {num World} _ _.

Section ImageProcessorService.
Context {num : Type} `{JsNumber num} {World : Type}.
Variable sharp : Sharp num World.

#[local] Instance IO_ret : MRet (IO World) := @io_ret World.
#[local] Instance IO_bind : MBind (IO World) := @io_bind World.

(** [a || b] on an optional number and a number. *)
Definition or_num (a : option num) (b : num) : num :=
  match a with
  | Some x => if num_truthy x then x else b
  | None => b
  end.

(** [x ? x : null] on an optional number. *)
Definition truthy_or_null (a : option num) : option num :=
  match a with
  | Some x => if num_truthy x then Some x else None
  | None => None
  end.

(** ImageProcessorService.processImage *)
Definition ImageProcessorService_processImage (buffer : option Buffer)
    (size : ImageSize num) (format : ImageFormat num)
    : IO World (ProcessedImage num) :=
  io_try
    (processedBuffer ←
       sharp_toBuffer sharp buffer (width size) (truthy_or_null (height size))
         (type format) (or_num (quality format) (num_of_Z 80));
     metadata ← sharp_metadata sharp (Some processedBuffer);
     mret (mkProcessedImage processedBuffer (format_key (type format))
             (or_num (m_width metadata) (width size))
             (or_num (m_height metadata) (or_num (height size) (num_of_Z 0)))))
    (λ error,
       if instanceof error C_ImageProcessingFailedError
       then io_throw error
       else io_throw (ImageProcessingFailedError
                        ("Failed to process image: " +:+ message error)
                        (Some error))).

(** ImageProcessorService.getImageMetadata *)
Definition getImageMetadata (buffer : option Buffer) : IO World (Metadata num) :=
  io_try (sharp_metadata sharp buffer)
    (λ error,
       io_throw (ImageProcessingFailedError
                   ("Failed to get image metadata: " +:+ message error)
                   (Some error))).

(** ImageProcessorService.validateImage *)
Definition validateImage (buffer : option Buffer) : IO World bool :=
  io_try (sharp_metadata sharp buffer ;; mret true) (λ _, mret false).

(** The pipeline's collaborators when its image processor is this
    service. *)
Definition with_sharp (upload : string → option Buffer → World → Settled string * World)
    (uuid : World → string * World) : Collaborators num World :=
  mkCollaborators validateImage ImageProcessorService_processImage upload uuid.

End ImageProcessorService.

(* --------------------------------------------------------------------- *)
(** *** services/image-pipeline.service.ts: getImage and deleteImage *)

(** The other two operations of the StorageDriver interface. *)
Record StorageAccess (World : Type) := mkStorageAccess {
  storageDriver_download : string → World → Settled Buffer * World;
  storageDriver_delete : string → World → Settled unit * World
}.
Arguments mkStorageAccess {World} _ _.
Arguments storageDriver_download {World} _ _.
Arguments storageDriver_delete {World} _ _.

Section StorageAccessors.
Context {World : Type}.
Variable driver : StorageAccess World.

(** ImagePipelineService.getImage *)
Definition getImage (imagePath : string) : IO World Buffer :=
  io_try_await (storageDriver_download driver imagePath)
    (λ error,
       match reason_message error with
       | Normal msg =>
           io_throw (StorageError ("Failed to get image: " +:+ msg)
                       (reason_as_error error))
       | Throw thrown => io_throw thrown
       end).

(** ImagePipelineService.deleteImage *)
Definition deleteImage (imagePath : string) : IO World unit :=
  io_try_await (storageDriver_delete driver imagePath)
    (λ error,
       match reason_message error with
       | Normal msg =>
           io_throw (StorageError ("Failed to delete image: " +:+ msg)
                       (reason_as_error error))
       | Throw thrown => io_throw thrown
       end).

End StorageAccessors.

(* --------------------------------------------------------------------- *)
(** *** Reading the call log *)

Section CallLog.
Context {num : Type} `{JsNumber num}.

Definition is_console_error (c : Call num) : bool :=
  match c with
  | CallConsoleError _ _ => true
  | _ => false
  end.

Definition is_upload_call (c : Call num) : bool :=
  match c with
  | CallUpload _ _ => true
  | _ => false
  end.

(** A call the loops of processImage may make for the tuples of [tuples]:
    a transform of the original [buffer] at a tuple's effective size, an
    upload of some bytes under a tuple's variant name, or a logged error. *)
Definition variant_call (buffer : option Buffer) (originalFilename : string)
    (tuples : list (ImageSize num * ImageFormat num * num)) (c : Call num) : Prop :=
  match c with
  | CallProcessImage b size format =>
      b = buffer
      ∧ ∃ t, t ∈ tuples ∧ size = actualSize t.1.1 t.2 ∧ format = t.1.2
  | CallUpload path data =>
      is_Some data
      ∧ ∃ t, t ∈ tuples
             ∧ path = generateFileName originalFilename (width t.1.1)
                        (format_key (type t.1.2)) (Some t.2)
  | CallConsoleError _ _ => True
  | CallValidateImage _ | CallUuid => False
  end.

(** The outcomes that are failures. *)
Definition failures (outcomes : list ((@Tuple num) * Completion string))
    : list (@Tuple num) :=
  flat_map (λ '(t, outcome),
              match outcome with
              | Normal _ => []
              | Throw _ => [t]
              end) outcomes.

End CallLog.

(* --------------------------------------------------------------------- *)
(** *** MockStorageDriver: download and delete *)

Module MockStorage.

(** [download(path)]: [if (!data) throw new Error('File not found')]. *)
Definition download (path : string) : Mock.World → Settled Buffer * Mock.World :=
  λ w, match Mock.files w !! path with
       | Some (Some data) => (Fulfilled data, w)
       | _ => (Rejected (ReasonError (mkJsError C_Error "File not found" None None)), w)
       end.

(** [delete(path)]: [if (!this.files.has(path)) throw new Error('File not
    found'); this.files.delete(path)]. *)
Definition delete (path : string) : Mock.World → Settled unit * Mock.World :=
  λ w, match Mock.files w !! path with
       | Some _ => (Fulfilled tt, Mock.mkWorld (base.delete path (Mock.files w))
                                    (Mock.uuid_counter w))
       | None => (Rejected (ReasonError (mkJsError C_Error "File not found" None None)), w)
       end.

Definition driver : StorageAccess Mock.World := mkStorageAccess download delete.

(** [upload(path, data)], as in [Mock.deps] when no path is bad. *)
Definition upload (path : string) (data : option Buffer)
    : Mock.World → Settled string * Mock.World :=
  storageDriver_upload (Mock.deps Mock.ok2 Mock.ok1) path data.

End MockStorage.

(** A stand-in for sharp that reads a buffer only if it starts with the
    JPEG marker byte 0xFF or is one of its own encodings (which start with
    0x70), and whose encodings are [Mock.processed]. *)
Module MockSharp.

Definition readable (input : option Buffer) : bool :=
  match input with
  | Some (first :: _) => Byte.eqb first Byte.xff || Byte.eqb first Byte.x70
  | _ => false
  end.

Definition unreadable : JsError :=
  mkJsError C_Error "Input buffer contains unsupported image format" None None.

Definition sharp : Sharp Z Mock.World :=
  mkSharp
    (λ input w h t q world,
       if readable input then (Normal Mock.processed, world)
       else (Throw unreadable, world))
    (λ input world,
       if readable input then (Normal (mkMetadata (Some 4) (Some 3)), world)
       else (Throw unreadable, world)).

(** The pipeline wired as ImageProcessorModule wires it: the service over
    sharp, with the in-memory storage. *)
Definition deps : Collaborators Z Mock.World :=
  with_sharp sharp MockStorage.upload (uuidv4 (Mock.deps Mock.ok2 Mock.ok1)).

Definition png_bytes : Buffer := [Byte.x89; Byte.x50; Byte.x4e; Byte.x47].

End MockSharp.

(* ===================================================================== *)
(** * Properties *)
(* ===================================================================== *)

(** ** Strings *)

Lemma lastIndexOf_absent c s : contains c s = false → lastIndexOf c s = -1.
Proof.
  induction s as [|a s IH]; simpl; [done|].
  intros [Ha Hs]%orb_false_iff. rewrite (IH Hs), Ha. reflexivity.
Qed.

Lemma lastIndexOf_last c b e :
  contains c e = false →
  lastIndexOf c (b +:+ String c e) = Z.of_nat (String.length b).
Proof.
  intros He. induction b as [|a b IH]; simpl.
  - rewrite (lastIndexOf_absent _ _ He). simpl. by rewrite Ascii.eqb_refl.
  - rewrite IH. destruct (0 <=? Z.of_nat (String.length b)) eqn:E.
    + lia.
    + apply Z.leb_gt in E. lia.
Qed.

Lemma substring_prefix b t :
  String.substring 0 (String.length b) (b +:+ t) = b.
Proof.
  induction b as [|a b IH]; simpl.
  - by destruct t.
  - by rewrite IH.
Qed.

Lemma length_append b t :
  String.length (b +:+ t) = (String.length b + String.length t)%nat.
Proof. induction b as [|a b IH]; simpl; [done | by rewrite IH]. Qed.

Lemma getBaseName_strips b e :
  contains "." e = false → getBaseName (b +:+ String "." e) = b.
Proof.
  intros He. unfold getBaseName. rewrite (lastIndexOf_last _ _ _ He).
  destruct (Z.of_nat (String.length b) =? -1) eqn:E; [apply Z.eqb_eq in E; lia|].
  unfold substring. rewrite length_append. simpl String.length.
  replace (Z.min _ _) with 0 by lia.
  replace (Z.to_nat (_ - 0)) with (String.length b) by lia.
  apply substring_prefix.
Qed.

Lemma getBaseName_whole s : contains "." s = false → getBaseName s = s.
Proof. intros Hs. unfold getBaseName. by rewrite (lastIndexOf_absent _ _ Hs). Qed.

(** ** Naming and validation *)

Section UtilsFacts.
Context {num : Type} `{JsNumber num}.

(** C7.  generateFileName gives "<basename>_<width>w@<dpr>x.<format>":
    the basename is the name up to its last '.', [ext] being dot-free, and
    is the whole name when the name has no '.'; an omitted dpr counts as 1.
    On the specification's two examples, with integer numbers, it gives
    "pic_320w@2x.webp" and "pic_320w@1x.webp". *)
Theorem generateFileName_format (originalName base ext fmt : string) (w d : num) :
  (contains "." ext = false →
   generateFileName (base +:+ "." +:+ ext) w fmt (Some d)
   = base +:+ "_" +:+ num_to_string w +:+ "w@" +:+ num_to_string d +:+ "x." +:+ fmt)
  ∧ (contains "." originalName = false →
     generateFileName originalName w fmt (Some d)
     = originalName +:+ "_" +:+ num_to_string w +:+ "w@" +:+ num_to_string d
       +:+ "x." +:+ fmt)
  ∧ generateFileName originalName w fmt None
    = generateFileName originalName w fmt (Some (num_of_Z 1))
  ∧ generateFileName (num:=Z) "pic.jpg" 320 "webp" (Some 2) = "pic_320w@2x.webp"
  ∧ generateFileName (num:=Z) "pic.jpg" 320 "webp" None = "pic_320w@1x.webp".
Proof.
  repeat split.
  - intros He. unfold generateFileName.
    change ("." +:+ ext) with (String "." ext).
    by rewrite getBaseName_strips.
  - intros Hs. unfold generateFileName. by rewrite getBaseName_whole.
Qed.

Lemma validateFile_missing buffer filename mimeType (maxSizeInBytes : option num) :
  buffer_missing buffer = true →
  validateFile buffer filename mimeType maxSizeInBytes
  = Throw (ImageValidationError "File buffer is empty").
Proof.
  intros Hb. unfold validateFile. destruct buffer as [b|]; [|done].
  simpl in Hb. by rewrite Hb.
Qed.

Lemma validateExtension_class filename e :
  validateExtension filename = Throw e →
  err_class e = C_UnsupportedImageFormatError.
Proof.
  unfold validateExtension. destruct (negb _); [|done]. by intros [= <-].
Qed.

Lemma validateMimeType_class m e :
  validateMimeType m = Throw e → err_class e = C_UnsupportedImageFormatError.
Proof.
  unfold validateMimeType. destruct (negb _); [|done]. by intros [= <-].
Qed.

Lemma validateFileSize_error (b : Buffer) (m : option num) e :
  validateFileSize b m = Throw e →
  err_class e = C_ImageValidationError ∧ message e ≠ "File buffer is empty".
Proof.
  unfold validateFileSize. destruct (num_gt _ _); [|done].
  intros [= <-]. split; [done|]. simpl. discriminate.
Qed.

(** The errors of the validator are of the two validation classes. *)
Lemma validateFile_class buffer filename mimeType (maxSizeInBytes : option num) e :
  validateFile buffer filename mimeType maxSizeInBytes = Throw e →
  err_class e = C_ImageValidationError
  ∨ err_class e = C_UnsupportedImageFormatError.
Proof.
  unfold validateFile. destruct buffer as [b|]; [|intros [= <-]; by left].
  destruct (length b =? 0)%nat; [intros [= <-]; by left|].
  destruct (validateExtension filename) as [[]|e1] eqn:E1; simpl;
    [|intros [= <-]; right; by eapply validateExtension_class].
  assert (∀ c : Completion unit,
    (∀ e', c = Throw e' → err_class e' = C_UnsupportedImageFormatError) →
    ∀ k : Completion unit,
    (∀ e', k = Throw e' → err_class e' = C_ImageValidationError) →
    (c ;; k) = Throw e →
    err_class e = C_ImageValidationError
    ∨ err_class e = C_UnsupportedImageFormatError) as Hseq.
  { intros [[]|e1] Hc k Hk; simpl; intros Hr; [left; by apply Hk|].
    injection Hr as <-. right. by apply Hc. }
  apply Hseq.
  - destruct mimeType as [m|]; [|done].
    destruct (str_truthy m); [|done]. intros e'. apply validateMimeType_class.
  - destruct maxSizeInBytes as [m|]; [|done].
    destruct (num_truthy m); [|done]. intros e' He'.
    by apply validateFileSize_error in He' as [? _].
Qed.

(** C8 (amended).  validateFile throws the ImageValidationError
    'File buffer is empty' exactly when the buffer is absent or empty.  On
    any other buffer it gives what the first failing of these checks gives,
    unchanged: the extension check, always; the MIME-type check, when
    [mimeType] is supplied and not the empty string; the size check, when
    [maxSizeInBytes] is supplied and truthy (not 0) -- so a non-empty buffer
    fails with an ImageValidationError too, when the size check is the first
    to fail. *)
Theorem validateFile_first_failure (buffer : option Buffer) (filename : string)
    (mimeType : option string) (maxSizeInBytes : option num) :
  (validateFile buffer filename mimeType maxSizeInBytes
   = Throw (ImageValidationError "File buffer is empty")
   ↔ buffer_missing buffer = true)
  ∧ (∀ b, buffer = Some b → buffer_missing buffer = false →
       validateFile buffer filename mimeType maxSizeInBytes
       = first_failure (checks_run b filename mimeType maxSizeInBytes)).
Proof.
  assert (∀ b, buffer = Some b → buffer_missing buffer = false →
            validateFile buffer filename mimeType maxSizeInBytes
            = first_failure (checks_run b filename mimeType maxSizeInBytes)) as Hrun.
  { intros b -> Hb. unfold validateFile, checks_run. simpl in Hb. rewrite Hb.
    destruct (validateExtension filename) as [[]|e1]; simpl; [|done].
    destruct mimeType as [m|]; [destruct (str_truthy m)|]; simpl;
      try (destruct (validateMimeType m) as [[]|e2]; simpl; [|done]);
      (destruct maxSizeInBytes as [x|]; [destruct (num_truthy x)|]; simpl;
       try done; by destruct (validateFileSize b (Some x)) as [[]|e3]). }
  split; [|exact Hrun]. split.
  - intros Hthrow. destruct (buffer_missing buffer) eqn:Hb; [done|].
    destruct buffer as [b|]; [|done].
    rewrite (Hrun b eq_refl eq_refl) in Hthrow. exfalso.
    unfold checks_run in Hthrow.
    destruct (validateExtension filename) as [[]|e1] eqn:E1; simpl in Hthrow;
      [|injection Hthrow as ->; by apply validateExtension_class in E1].
    destruct mimeType as [m|]; [destruct (str_truthy m)|]; simpl in Hthrow;
      try (destruct (validateMimeType m) as [[]|e2] eqn:E2; simpl in Hthrow;
           [|injection Hthrow as ->; by apply validateMimeType_class in E2]);
      (destruct maxSizeInBytes as [x|]; [destruct (num_truthy x)|];
       simpl in Hthrow; try done;
       destruct (validateFileSize b (Some x)) as [[]|e3] eqn:E3; simpl in Hthrow;
       [done|injection Hthrow as ->;
             by apply validateFileSize_error in E3 as [_ ?]]).
  - apply validateFile_missing.
Qed.

End UtilsFacts.

(** ** The loops of processImage *)

Section PipelineFacts.
Context {num : Type} `{JsNumber num} {World : Type}.
Variable deps : Collaborators num World.

Local Notation "'Task'" := (Async (num:=num) (World:=World)).

Lemma bind_run {A B} (m : Task A) (f : A → Task B) s :
  (m ≫= f) s = match m s with
               | (Normal a, s') => f a s'
               | (Throw e, s') => (Throw e, s')
               end.
Proof. reflexivity. Qed.

Lemma for_of_ext {X S} (xs : list X) (b1 b2 : X → S → Task S) :
  (∀ x acc s, b1 x acc s = b2 x acc s) →
  ∀ acc s, for_of xs b1 acc s = for_of xs b2 acc s.
Proof.
  intros Hb. induction xs as [|x xs IH]; intros acc s; simpl; [done|].
  rewrite !bind_run, Hb. destruct (b2 x acc s) as [[a|e] s']; [apply IH | done].
Qed.

Lemma for_of_app {X S} (xs ys : list X) (body : X → S → Task S) acc s :
  for_of (xs ++ ys) body acc s = (for_of xs body acc ≫= for_of ys body) s.
Proof.
  revert acc s. induction xs as [|x xs IH]; intros acc s; simpl; [done|].
  rewrite !bind_run. destruct (body x acc s) as [[a|e] s']; [|done].
  rewrite IH. by rewrite bind_run.
Qed.

Lemma for_of_bind {X Y S} (f : X → list Y) (xs : list X)
    (body : Y → S → Task S) acc s :
  for_of (xs ≫= f) body acc s = for_of xs (λ x, for_of (f x) body) acc s.
Proof.
  revert acc s. induction xs as [|x xs IH]; intros acc s; [done|].
  rewrite bind_cons, for_of_app. simpl. rewrite !bind_run.
  destruct (for_of (f x) body acc s) as [[a|e] s']; [apply IH | done].
Qed.

Lemma for_of_single {X S} (x : X) (body : X → S → Task S) acc s :
  for_of [x] body acc s = body x acc s.
Proof. simpl. rewrite bind_run. by destruct (body x acc s) as [[a|e] s']. Qed.

(** The nested loops walk the combination space in order. *)
Lemma generate_variants_flat config buffer fn g s :
  generate_variants deps config buffer fn g s
  = for_of (combinations config)
      (λ t, variant_step deps buffer fn t.1.1 t.1.2 t.2) g s.
Proof.
  unfold generate_variants, combinations.
  rewrite for_of_bind. apply for_of_ext. intros size g1 s1.
  rewrite for_of_bind. apply for_of_ext. intros fmt g2 s2.
  rewrite for_of_bind. apply for_of_ext. intros d g3 s3.
  by rewrite for_of_single.
Qed.

(** A turn of the loop never throws: it appends the stored path, or logs. *)
Lemma variant_step_settle buffer fn t g s paths :
  g !! tuple_key t = Some paths →
  variant_step deps buffer fn t.1.1 t.1.2 t.2 g s
  = match variant_task deps buffer fn t s with
    | (Normal path, s1) => (Normal (<[tuple_key t := paths ++ [path]]> g), s1)
    | (Throw error, s1) => (Normal g, (variant_failed t.1.1 t.1.2 t.2 error s1).2)
    end.
Proof.
  intros Hk. destruct t as [[size fmt] d].
  unfold variant_step, try_catch, processVariant, variant_task, tuple_key in *.
  simpl in *. rewrite !bind_run.
  destruct (call_processImage deps buffer (actualSize size d) fmt s) as [[p|e] s1];
    [|reflexivity].
  rewrite bind_run.
  destruct (uploadFile deps _ _ s1) as [[path|e] s2]; [|reflexivity].
  unfold push_generated. by rewrite Hk.
Qed.

Lemma successes_cons key t o outcomes :
  successes (num:=num) key ((t, o) :: outcomes)
  = match o with
    | Normal path => if bool_decide (tuple_key t = key) then [path] else []
    | Throw _ => []
    end ++ successes key outcomes.
Proof. reflexivity. Qed.

Lemma for_of_settle buffer fn tuples : ∀ g s,
  (∀ t, t ∈ tuples → is_Some (g !! tuple_key t)) →
  ∃ g',
    for_of tuples (λ t, variant_step deps buffer fn t.1.1 t.1.2 t.2) g s
    = (Normal g', (settle deps buffer fn tuples s).2)
    ∧ ∀ key, g' !! key
        = (λ paths, paths ++ successes key (settle deps buffer fn tuples s).1)
          <$> g !! key.
Proof.
  induction tuples as [|t tuples IH]; intros g s Hkeys.
  - exists g. split; [done|]. intros key. simpl.
    destruct (g !! key); simpl; [by rewrite app_nil_r | done].
  - destruct (Hkeys t) as [paths Hp]; [left|].
    cbn [for_of settle]. rewrite bind_run.
    rewrite (variant_step_settle _ _ _ _ _ _ Hp).
    destruct (variant_task deps buffer fn t s) as [[path|e] s1].
    + destruct (IH (<[tuple_key t := paths ++ [path]]> g) s1) as (g' & Hrun & Hg').
      { intros t' Ht'. destruct (decide (tuple_key t = tuple_key t')) as [->|Hne].
        - rewrite lookup_insert_eq. eauto.
        - rewrite lookup_insert_ne by done. apply Hkeys. by right. }
      destruct (settle deps buffer fn tuples s1) as [outcomes s3] eqn:E.
      exists g'. split; [done|]. intros key. rewrite Hg'. cbn [fst].
      rewrite successes_cons. case_bool_decide as Hk.
      * subst key. rewrite lookup_insert_eq, Hp. simpl. by rewrite <- app_assoc.
      * by rewrite lookup_insert_ne.
    + destruct (IH g (variant_failed t.1.1 t.1.2 t.2 e s1).2) as (g' & Hrun & Hg').
      { intros t' Ht'. apply Hkeys. by right. }
      destruct (settle deps buffer fn tuples _) as [outcomes s3] eqn:E.
      exists g'. split; [done|]. intros key. rewrite Hg'. done.
Qed.

Lemma settle_tuples buffer fn tuples : ∀ s,
  (settle deps buffer fn tuples s).1.*1 = tuples.
Proof.
  induction tuples as [|t tuples IH]; intros s; [done|].
  cbn [settle].
  destruct (variant_task deps buffer fn t s) as [o s1].
  specialize (IH (match o with
                  | Normal _ => s1
                  | Throw error => (variant_failed t.1.1 t.1.2 t.2 error s1).2
                  end)).
  destruct (settle deps buffer fn tuples _) as [outcomes s3].
  simpl in *. by f_equal.
Qed.

Lemma init_generated_lookup (fmts : list (ImageFormat num)) key :
  init_generated fmts !! key
  = if bool_decide (key ∈ format_keys fmts) then Some [] else None.
Proof.
  unfold init_generated.
  assert (∀ g0 : gmap string (list string),
    foldl (λ g format, <[format_key (type format) := []]> g) g0 fmts !! key
    = if bool_decide (key ∈ format_keys fmts) then Some [] else g0 !! key) as Hgen.
  { induction fmts as [|f fmts IH]; intros g0; [done|].
    simpl. rewrite IH. clear IH. unfold format_keys.
    destruct (decide (key ∈ (λ format, format_key (type format)) <$> fmts))
      as [Hin|Hout].
    - rewrite !bool_decide_true; [done | by right | done].
    - rewrite (bool_decide_false _ Hout).
      destruct (decide (format_key (type f) = key)) as [<-|Hne].
      + rewrite lookup_insert_eq. by rewrite bool_decide_true by left.
      + rewrite lookup_insert_ne by done. rewrite bool_decide_false; [done|].
        intros [Heq|Hin]%elem_of_cons; [by symmetry in Heq | done]. }
  by rewrite Hgen.
Qed.

Lemma collect_generated_lookup (fmts : list (ImageFormat num)) outcomes key :
  collect_generated fmts outcomes !! key
  = if bool_decide (key ∈ format_keys fmts)
    then Some (successes key outcomes) else None.
Proof.
  induction fmts as [|f fmts IH]; [done|].
  simpl. destruct (decide (format_key (type f) = key)) as [<-|Hne].
  - rewrite lookup_insert_eq. clear IH. by rewrite bool_decide_true by left.
  - rewrite lookup_insert_ne by done. rewrite IH. clear IH. unfold format_keys.
    destruct (decide (key ∈ (λ format, format_key (type format)) <$> fmts))
      as [Hin|Hout].
    + rewrite !bool_decide_true; [done | by right | done].
    + rewrite !bool_decide_false; [done | | done].
      intros [Heq|Hin]%elem_of_cons; [by symmetry in Heq | done].
Qed.

Lemma combinations_format (config : ConfigView num) t :
  t ∈ combinations config → tuple_key t ∈ format_keys (formats config).
Proof.
  unfold combinations. intros Ht.
  apply list_elem_of_bind in Ht as (size & Ht & _).
  apply list_elem_of_bind in Ht as (f & Ht & Hf).
  apply list_elem_of_bind in Ht as (d & Ht & _).
  apply list_elem_of_singleton in Ht as ->.
  unfold tuple_key, format_keys. simpl.
  apply list_elem_of_fmap. by exists f.
Qed.

End PipelineFacts.

(** ** processImage *)

Section ProcessImageFacts.
Context {num : Type} `{JsNumber num} {World : Type}.
Variable deps : Collaborators num World.
Implicit Types (config : ConfigView num) (buffer : option Buffer)
  (s : PipeState num World) (error : JsError).

Lemma pipeline_catch_run {A} error s :
  pipeline_catch (A:=A) error s = (Throw (rethrown error), s).
Proof.
  unfold pipeline_catch, rethrown.
  by destruct (instanceof error C_StorageError
               || instanceof error C_ImageProcessingFailedError).
Qed.

Lemma rethrown_class error :
  xorb (instanceof (rethrown error) C_StorageError)
       (instanceof (rethrown error) C_ImageProcessingFailedError) = true.
Proof.
  unfold rethrown, instanceof.
  destruct error as [[] msg c cause]; reflexivity.
Qed.

Lemma processImage_run config buffer fn mime max s :
  processImage deps config buffer fn mime max s
  = match processImage_try deps config buffer fn mime max s with
    | (Normal r, s') => (Normal r, s')
    | (Throw error, s') => (Throw (rethrown error), s')
    end.
Proof.
  unfold processImage, try_catch.
  destruct (processImage_try deps config buffer fn mime max s) as [[r|e] s'];
    [done | apply pipeline_catch_run].
Qed.

(** The [try] block is the storing of the original, then the loops. *)
Lemma processImage_try_split config buffer fn mime max s :
  processImage_try deps config buffer fn mime max s
  = match store_original deps buffer fn mime max s with
    | (Normal path, s1) =>
        match generate_variants deps config buffer fn
                (init_generated (formats config)) s1 with
        | (Normal g, s2) => (Normal (mkResult path g), s2)
        | (Throw error, s2) => (Throw error, s2)
        end
    | (Throw error, s1) => (Throw error, s1)
    end.
Proof.
  unfold processImage_try, store_original. rewrite !bind_run.
  destruct (sync _ s) as [[[]|e] s0]; [|done].
  rewrite !bind_run.
  destruct (call_validateImage deps buffer s0) as [[[]|e] s0']; simpl; [| done | done].
  rewrite !bind_run.
  destruct (generateOriginalPath deps fn None s0') as [[path|e] s0'']; [|done].
  rewrite !bind_run.
  destruct (uploadFile deps path buffer s0'') as [[p|e] s1]; [|done].
  simpl. rewrite bind_run.
  by destruct (generate_variants _ _ _ _ _ _) as [[g|e] s2].
Qed.

(** The loops never throw: they collect what their turns returned. *)
Lemma generate_variants_settles config buffer fn s1 :
  generate_variants deps config buffer fn (init_generated (formats config)) s1
  = (Normal (collect_generated (formats config)
               (settle deps buffer fn (combinations config) s1).1),
     (settle deps buffer fn (combinations config) s1).2).
Proof.
  destruct (for_of_settle deps buffer fn (combinations config)
              (init_generated (formats config)) s1) as (g' & Hrun & Hg').
  { intros t Ht%combinations_format. rewrite init_generated_lookup.
    rewrite bool_decide_true by done. eauto. }
  rewrite generate_variants_flat. etrans; [exact Hrun|].
  f_equal. f_equal. apply map_eq. intros key.
  rewrite Hg', init_generated_lookup, collect_generated_lookup.
  by case_bool_decide.
Qed.

Lemma processImage_stored config buffer fn mime max s path s1 :
  store_original deps buffer fn mime max s = (Normal path, s1) →
  processImage deps config buffer fn mime max s
  = (Normal (mkResult path
               (collect_generated (formats config)
                  (settle deps buffer fn (combinations config) s1).1)),
     (settle deps buffer fn (combinations config) s1).2).
Proof.
  intros Hstore.
  by rewrite processImage_run, processImage_try_split, Hstore,
    generate_variants_settles.
Qed.

(** A call that resolves has stored its original. *)
Lemma processImage_resolved config buffer fn mime max s r s' :
  processImage deps config buffer fn mime max s = (Normal r, s') →
  ∃ s1, store_original deps buffer fn mime max s = (Normal (original r), s1).
Proof.
  rewrite processImage_run, processImage_try_split.
  destruct (store_original deps buffer fn mime max s) as [[path|e] s1]; [|done].
  rewrite generate_variants_settles. intros [= <- <-]. by exists s1.
Qed.

(** The steps up to the upload of the original, when each succeeds. *)
Lemma store_original_run buffer fn mime max s w1 uuid w2 answered w3 :
  validateFile buffer fn mime max = Normal tt →
  imageProcessor_validateImage deps buffer (world s) = (Normal true, w1) →
  uuidv4 deps w1 = (uuid, w2) →
  let originalPath := "/uploads/originals" +:+ "/" +:+ uuid +:+ getFileExtension fn in
  storageDriver_upload deps originalPath buffer w2 = (Fulfilled answered, w3) →
  store_original deps buffer fn mime max s
  = (Normal originalPath,
     mkPipeState w3 (calls s ++ [CallValidateImage buffer; CallUuid;
                                 CallUpload originalPath buffer])).
Proof.
  intros Hv Hvalid Huuid originalPath Hup. unfold store_original.
  rewrite bind_run. unfold sync. rewrite Hv.
  rewrite bind_run. unfold call_validateImage. rewrite Hvalid. simpl.
  rewrite bind_run. unfold generateOriginalPath, generateOriginalFileName.
  rewrite !bind_run. unfold call_uuidv4. simpl. rewrite Huuid. simpl.
  rewrite bind_run. unfold uploadFile, try_await, call_upload. simpl.
  fold originalPath. rewrite Hup. simpl. by rewrite <- !app_assoc.
Qed.

(** *** The turns of the code against the tasks of the specification *)

(** A turn succeeds exactly when the transform returns and the storage
    fulfils the upload, with the path the storage gave; it leaves the world
    as the two capabilities left it. *)
Lemma variant_task_outcome buffer fn (t : Tuple) s :
  spec_task deps buffer fn t (world s)
  = (path_of (variant_task deps buffer fn t s).1,
     world (variant_task deps buffer fn t s).2).
Proof.
  destruct t as [[size fmt] d]. unfold variant_task, spec_task.
  rewrite bind_run. unfold call_processImage. simpl.
  destruct (imageProcessor_processImage deps buffer (actualSize size d) fmt (world s))
    as [[p|e] w1]; [|done].
  unfold uploadFile, try_await, call_upload. simpl.
  by destruct (storageDriver_upload deps _ _ w1) as [[path|[e| |]] w2].
Qed.

Lemma settle_outcomes buffer fn (tuples : list Tuple) : ∀ s,
  spec_outcomes deps buffer fn tuples (world s)
  = ((λ to, (to.1, path_of to.2)) <$> (settle deps buffer fn tuples s).1,
     world (settle deps buffer fn tuples s).2).
Proof.
  induction tuples as [|t tuples IH]; intros s; [done|].
  cbn [settle spec_outcomes]. rewrite variant_task_outcome.
  destruct (variant_task deps buffer fn t s) as [o s1]. cbn [fst snd].
  set (s2 := match o with
             | Normal _ => s1
             | Throw error => (variant_failed t.1.1 t.1.2 t.2 error s1).2
             end).
  assert (world s1 = world s2) as -> by by destruct o.
  rewrite (IH s2). by destruct (settle deps buffer fn tuples s2) as [outcomes s3].
Qed.

Lemma successes_paths key (outcomes : list (@Tuple num * Completion string)) :
  successes key outcomes = spec_paths key ((λ to, (to.1, path_of to.2)) <$> outcomes).
Proof.
  induction outcomes as [|[t o] outcomes IH]; [done|].
  rewrite successes_cons, fmap_cons, IH. by destruct o.
Qed.

(** C2.  When the input passes validation and the decodability check and
    the original is stored, processImage resolves, whatever fails among the
    per-tuple transforms and storage writes.  Take each tuple of the
    combination space in iteration order and ask the image processor for
    its variant and then the storage to write it, each from the world the
    one before left: a tuple succeeds when both do, with the path the storage
    returned.  Under each configured format type [generated] holds exactly
    the paths of the tuples of that type that succeeded, in that order -- a
    tuple whose transform or storage write failed adds nothing -- and
    [generated] has no other key; the call leaves the world as these
    requests left it. *)
Theorem partial_failure_isolated config buffer fn mime max s
    w1 uuid w2 answered w3 :
  validateFile buffer fn mime max = Normal tt →
  imageProcessor_validateImage deps buffer (world s) = (Normal true, w1) →
  uuidv4 deps w1 = (uuid, w2) →
  let originalPath := "/uploads/originals" +:+ "/" +:+ uuid +:+ getFileExtension fn in
  storageDriver_upload deps originalPath buffer w2 = (Fulfilled answered, w3) →
  let tasks := spec_outcomes deps buffer fn (combinations config) w3 in
  ∃ r s2,
    processImage deps config buffer fn mime max s = (Normal r, s2)
    ∧ original r = originalPath
    ∧ world s2 = tasks.2
    ∧ tasks.1.*1 = combinations config
    ∧ ∀ key, generated r !! key
        = if bool_decide (key ∈ format_keys (formats config))
          then Some (spec_paths key tasks.1) else None.
Proof.
  intros Hv Hvalid Huuid originalPath Hup tasks.
  pose proof (store_original_run _ _ _ _ _ _ _ _ _ _ Hv Hvalid Huuid Hup) as Hstore.
  fold originalPath in Hstore.
  set (s1 := mkPipeState w3 (calls s ++ [CallValidateImage buffer; CallUuid;
                                         CallUpload originalPath buffer])) in Hstore.
  eexists _, _.
  split; [by apply processImage_stored|]. split; [done|].
  unfold tasks. change w3 with (world s1). rewrite settle_outcomes. cbn [fst snd].
  split; [done|]. split.
  - rewrite <- list_fmap_compose.
    etrans; [|exact (settle_tuples deps buffer fn (combinations config) s1)]. done.
  - intros key. cbn [generated]. rewrite collect_generated_lookup.
    by rewrite successes_paths.
Qed.

(** C1 (amended).  On an absent or empty buffer processImage rejects
    without a single call to the image processor or to the storage (the
    state, call log included, is the one it started from); the validator's
    ImageValidationError 'File buffer is empty' does not reach the caller as
    such: the outer catch wraps it, and the rejection is an
    ImageProcessingFailedError with message
    'Pipeline processing failed: File buffer is empty' whose originalError
    is that ImageValidationError. *)
Theorem empty_buffer_rejected config buffer fn mime max s :
  buffer_missing buffer = true →
  processImage deps config buffer fn mime max s
  = (Throw (ImageProcessingFailedError
              "Pipeline processing failed: File buffer is empty"
              (Some (ImageValidationError "File buffer is empty"))),
     s).
Proof.
  intros Hb. rewrite processImage_run. unfold processImage_try.
  rewrite bind_run. unfold sync.
  by rewrite (validateFile_missing _ _ _ _ Hb).
Qed.

(** C3.  When the input is valid and decodable and the storage rejects
    the upload of the original, processImage rejects and the call log ends
    with that upload: validateImage, uuid, upload -- no transform, no
    variant.  What it rejects with depends on what the storage rejected
    with.  For an error it is the StorageError
    'Failed to upload file <path>: <message>' that keeps the error as
    originalError.  For [null] or [undefined] uploadFile's catch fails on
    [error.message] before it has built the StorageError, and the rejection
    is the outer catch's ImageProcessingFailedError around that
    TypeError. *)
Theorem original_upload_failure_is_fatal config buffer fn mime max s
    w1 uuid w2 reason w3 :
  validateFile buffer fn mime max = Normal tt →
  imageProcessor_validateImage deps buffer (world s) = (Normal true, w1) →
  uuidv4 deps w1 = (uuid, w2) →
  let originalPath := "/uploads/originals" +:+ "/" +:+ uuid +:+ getFileExtension fn in
  storageDriver_upload deps originalPath buffer w2 = (Rejected reason, w3) →
  ∃ s',
    processImage deps config buffer fn mime max s
    = (Throw
         match reason with
         | ReasonError error =>
             StorageError
               ("Failed to upload file " +:+ originalPath +:+ ": " +:+ message error)
               (Some error)
         | ReasonNull =>
             ImageProcessingFailedError
               "Pipeline processing failed: Cannot read properties of null (reading 'message')"
               (Some (TypeError "Cannot read properties of null (reading 'message')"))
         | ReasonUndefined =>
             ImageProcessingFailedError
               "Pipeline processing failed: Cannot read properties of undefined (reading 'message')"
               (Some (TypeError
                        "Cannot read properties of undefined (reading 'message')"))
         end, s')
    ∧ world s' = w3
    ∧ calls s' = calls s ++ [CallValidateImage buffer; CallUuid;
                             CallUpload originalPath buffer]
    ∧ filter is_transform_call (calls s') = filter is_transform_call (calls s).
Proof.
  intros Hv Hvalid Huuid originalPath Hup. eexists.
  rewrite processImage_run. unfold processImage_try.
  rewrite bind_run. unfold sync. rewrite Hv.
  rewrite bind_run. unfold call_validateImage. rewrite Hvalid. simpl.
  rewrite bind_run. unfold generateOriginalPath, generateOriginalFileName.
  rewrite !bind_run. unfold call_uuidv4. simpl. rewrite Huuid. simpl.
  rewrite bind_run. unfold uploadFile, try_await, call_upload. simpl.
  fold originalPath. rewrite Hup.
  split; [by destruct reason|].
  destruct reason; simpl; (split; [done|]);
    rewrite <- !app_assoc; simpl; (split; [done|]);
    rewrite filter_app; simpl; by rewrite app_nil_r.
Qed.

Lemma combinations_empty config :
  sizes config = [] ∨ formats config = [] ∨ ratios config = [] →
  combinations config = [].
Proof.
  unfold combinations. intros [-> | [-> | ->]]; [done| |].
  - induction (sizes config) as [|x l IH]; [done|].
    by rewrite bind_cons, IH.
  - induction (sizes config) as [|x l IH]; [done|].
    rewrite bind_cons, IH, app_nil_r.
    clear IH. induction (formats config) as [|y l' IH]; [done|].
    by rewrite bind_cons, IH.
Qed.

(** C5.  In the result of a call that resolves, every format type of the
    configuration is a key of [generated].  With an empty sizes, formats or
    ratios axis a call that has stored its original resolves, does nothing
    further, and every such key holds the empty list. *)
Theorem every_format_has_a_key config buffer fn mime max s :
  (∀ r s',
     processImage deps config buffer fn mime max s = (Normal r, s') →
     ∀ format, format ∈ formats config →
       is_Some (generated r !! format_key (type format)))
  ∧ (sizes config = [] ∨ formats config = [] ∨ ratios config = [] →
     ∀ path s1,
       store_original deps buffer fn mime max s = (Normal path, s1) →
       ∃ g,
         processImage deps config buffer fn mime max s
         = (Normal (mkResult path g), s1)
         ∧ ∀ key, g !! key
             = if bool_decide (key ∈ format_keys (formats config))
               then Some [] else None).
Proof.
  split.
  - intros r s' Hrun format Hin.
    destruct (processImage_resolved _ _ _ _ _ _ _ _ Hrun) as [s1 Hstore].
    rewrite (processImage_stored _ _ _ _ _ _ _ _ Hstore) in Hrun.
    injection Hrun as <- <-. simpl.
    rewrite collect_generated_lookup, bool_decide_true; [eauto|].
    unfold format_keys. apply list_elem_of_fmap. by exists format.
  - intros Hempty path s1 Hstore.
    rewrite (processImage_stored _ _ _ _ _ _ _ _ Hstore).
    rewrite (combinations_empty _ Hempty). simpl.
    eexists. split; [done|]. intros key. by rewrite collect_generated_lookup.
Qed.

Lemma validateFile_rethrown buffer fn mime (max : option num) cause :
  validateFile buffer fn mime max = Throw cause →
  rethrown cause
  = ImageProcessingFailedError
      ("Pipeline processing failed: " +:+ message cause) (Some cause).
Proof.
  intros Hc. apply validateFile_class in Hc. unfold rethrown, instanceof.
  by destruct Hc as [-> | ->].
Qed.

(** C10.  A rejection of processImage is what the outer catch makes of the
    error [cause] its try block threw, and is an instance of exactly one of
    StorageError and ImageProcessingFailedError: the catch rethrows an
    instance of either as it is, and wraps any other error -- those of
    validateFile among them -- in an ImageProcessingFailedError whose
    message is 'Pipeline processing failed: ' followed by the cause's and
    whose originalError is the cause. *)
Theorem rejections_are_storage_or_processing config buffer fn mime max s :
  (∀ e s',
     processImage deps config buffer fn mime max s = (Throw e, s') →
     ∃ cause,
       processImage_try deps config buffer fn mime max s = (Throw cause, s')
       ∧ e = rethrown cause
       ∧ xorb (instanceof e C_StorageError)
              (instanceof e C_ImageProcessingFailedError) = true)
  ∧ (∀ cause,
       rethrown cause
       = if instanceof cause C_StorageError
            || instanceof cause C_ImageProcessingFailedError
         then cause
         else ImageProcessingFailedError
                ("Pipeline processing failed: " +:+ message cause) (Some cause))
  ∧ (∀ cause,
       validateFile buffer fn mime max = Throw cause →
       processImage deps config buffer fn mime max s
       = (Throw (ImageProcessingFailedError
                   ("Pipeline processing failed: " +:+ message cause)
                   (Some cause)), s)).
Proof.
  split; [|split].
  - intros e s'. rewrite processImage_run.
    destruct (processImage_try deps config buffer fn mime max s) as [[r|cause] s1];
      [done|].
    intros [= <- <-]. exists cause. split; [done|]. split; [done|].
    apply rethrown_class.
  - done.
  - intros cause Hc. rewrite processImage_run. unfold processImage_try.
    rewrite bind_run. unfold sync. rewrite Hc.
    by rewrite (validateFile_rethrown _ _ _ _ _ Hc).
Qed.

(** *** What reaches the collaborators *)




(** *** When nothing fails *)

Lemma bind_bind {A B C} (f : A → list B) (g : B → list C) (l : list A) :
  (l ≫= f) ≫= g = l ≫= (λ x, f x ≫= g).
Proof.
  induction l as [|x l IH]; [done|].
  by rewrite !bind_cons, bind_app, IH.
Qed.

Lemma bind_nothing {A B} (l : list A) : l ≫= (λ _, @nil B) = [].
Proof. induction l as [|x l IH]; [done|]. by rewrite bind_cons, IH. Qed.

Lemma length_bind_const {A B} (f : A → list B) (l : list A) n :
  (∀ x, length (f x) = n) → length (l ≫= f) = (length l * n)%nat.
Proof.
  intros Hf. induction l as [|x l IH]; [done|].
  rewrite bind_cons, length_app, Hf, IH. simpl. lia.
Qed.

Lemma length_bind_singleton {A B} (f : A → B) (l : list A) :
  length (l ≫= λ x, [f x]) = length l.
Proof. rewrite (length_bind_const _ _ 1%nat); [lia | done]. Qed.

Lemma length_bind_if {A B} (P : A → Prop) `{∀ x, Decision (P x)}
    (f : A → B) (l : list A) :
  length (l ≫= λ x, if bool_decide (P x) then [f x] else [])
  = length (filter P l).
Proof.
  induction l as [|x l IH]; [done|].
  rewrite bind_cons, length_app, IH, filter_cons.
  destruct (decide (P x)) as [Hx|Hx].
  - by rewrite bool_decide_true by done.
  - by rewrite bool_decide_false by done.
Qed.

Lemma successes_stored key stored fn (tuples : list Tuple) :
  successes key ((λ t, (t, Normal (stored_variant stored fn t))) <$> tuples)
  = tuples ≫= (λ t, if bool_decide (tuple_key t = key)
                    then [stored_variant stored fn t] else []).
Proof.
  induction tuples as [|t tuples IH]; [done|].
  rewrite fmap_cons, successes_cons, bind_cons. by rewrite IH.
Qed.

Lemma successes_all_variants stored config fn key :
  combinations config ≫= (λ t, if bool_decide (tuple_key t = key)
                               then [stored_variant stored fn t] else [])
  = all_variants stored config fn key.
Proof.
  unfold combinations, all_variants. rewrite bind_bind.
  apply list_bind_ext; [|done]. intros size. rewrite bind_bind.
  induction (formats config) as [|f l IH]; [done|].
  rewrite bind_cons, IH, filter_cons. clear IH.
  rewrite bind_bind. unfold stored_variant, tuple_key. simpl.
  destruct (decide (format_key (type f) = key)) as [Hk|Hk].
  - rewrite bind_cons. f_equal. apply list_bind_ext; [|done]. intros d.
    rewrite bool_decide_true by done. by rewrite Hk.
  - rewrite <- (app_nil_l (filter _ l ≫= _)) at 2. f_equal.
    etrans; [|apply (bind_nothing (ratios config))].
    apply list_bind_ext; [|done]. intros d.
    by rewrite bool_decide_false by done.
Qed.

Lemma length_all_variants stored config fn key :
  length (all_variants stored config fn key)
  = (length (sizes config)
     * (length (filter (λ f, format_key (type f) = key) (formats config))
        * length (ratios config)))%nat.
Proof.
  unfold all_variants. apply length_bind_const. intros size.
  apply length_bind_const. intros f. apply length_bind_singleton.
Qed.

(** The tuples of one format type in the combination space. *)
Lemma length_filter_combinations config key :
  length (filter (λ t : @Tuple num, tuple_key t = key) (combinations config))
  = (length (sizes config)
     * (length (filter (λ f, format_key (type f) = key) (formats config))
        * length (ratios config)))%nat.
Proof.
  rewrite <- (length_bind_if _ (stored_variant (λ name, name) "")).
  by rewrite successes_all_variants, length_all_variants.
Qed.

Lemma length_successes_normal key (outcomes : list (@Tuple num * Completion string)) :
  Forall (λ to, ∃ p, to.2 = Normal p) outcomes →
  length (successes key outcomes)
  = length (filter (λ t : @Tuple num, tuple_key t = key) outcomes.*1).
Proof.
  induction 1 as [|[t o] outcomes [p Hp] _ IH]; [done|].
  simpl in Hp. subst o. rewrite successes_cons, length_app, IH, fmap_cons.
  simpl. rewrite filter_cons.
  destruct (decide (tuple_key t = key)) as [Hk|Hk].
  - by rewrite bool_decide_true by done.
  - by rewrite bool_decide_false by done.
Qed.

Lemma filter_none {A} (P : A → Prop) `{∀ x, Decision (P x)} (l : list A) :
  (∀ x, x ∈ l → ¬ P x) → filter P l = [].
Proof.
  induction l as [|x l IH]; intros Hl; [done|].
  rewrite filter_cons_False by (apply Hl; left).
  apply IH. intros y Hy. apply Hl. by right.
Qed.

Lemma filter_unique_key (fmts : list (ImageFormat num)) key :
  NoDup (format_keys fmts) → key ∈ format_keys fmts →
  ∃ f, filter (λ f, format_key (type f) = key) fmts = [f].
Proof.
  unfold format_keys. induction fmts as [|f fmts IH]; [by intros _ ?%elem_of_nil|].
  rewrite fmap_cons, NoDup_cons. intros [Hf Hnd] Hin. rewrite filter_cons.
  destruct (decide (format_key (type f) = key)) as [Hk|Hk].
  - exists f. f_equal. apply filter_none.
    intros f' Hf' Hk'. apply Hf. rewrite Hk, <- Hk'.
    apply list_elem_of_fmap. by exists f'.
  - apply IH; [done|]. apply elem_of_cons in Hin as [Heq|Hin]; [by symmetry in Heq|done].
Qed.

Lemma all_variants_size_major stored config fn key :
  NoDup (format_keys (formats config)) → key ∈ format_keys (formats config) →
  all_variants stored config fn key = size_major_variants stored config fn key.
Proof.
  intros Hnd Hkey. destruct (filter_unique_key _ _ Hnd Hkey) as [f Hf].
  unfold all_variants, size_major_variants. rewrite Hf.
  apply list_bind_ext; [|done]. intros size. by rewrite bind_singleton.
Qed.

Section AllSucceed.
Hypothesis transform_ok : ∀ b size f w,
  ∃ p, (imageProcessor_processImage deps b size f w).1 = Normal p.
Hypothesis upload_ok : ∀ name data w,
  ∃ stored_path, (storageDriver_upload deps name data w).1 = Fulfilled stored_path.

Lemma task_normal buffer fn t s :
  ∃ stored_path, (variant_task deps buffer fn t s).1 = Normal stored_path.
Proof.
  destruct t as [[size fmt] d]. unfold variant_task.
  rewrite bind_run. unfold call_processImage. simpl.
  destruct (transform_ok buffer (actualSize size d) fmt (world s)) as [p Hp].
  destruct (imageProcessor_processImage deps buffer (actualSize size d) fmt (world s))
    as [r w1]. simpl in Hp. subst r.
  unfold uploadFile, try_await, call_upload. simpl.
  destruct (upload_ok
              (generateFileName fn (width size) (format_key (type fmt)) (Some d))
              (Some (p_buffer p)) w1) as [stored_path Hu].
  destruct (storageDriver_upload deps _ _ w1) as [r w2]. simpl in Hu. subst r.
  by exists stored_path.
Qed.

Lemma settle_all_normal buffer fn tuples : ∀ s,
  Forall (λ to, ∃ p, to.2 = Normal p) (settle deps buffer fn tuples s).1.
Proof.
  induction tuples as [|t tuples IH]; intros s; [by constructor|].
  cbn [settle]. destruct (task_normal buffer fn t s) as [p Hp].
  destruct (variant_task deps buffer fn t s) as [o s1]. simpl in Hp. subst o.
  specialize (IH s1). destruct (settle deps buffer fn tuples s1) as [os s3].
  simpl in *. constructor; [by exists p | done].
Qed.

Section Named.
Variable stored : string → string.
Hypothesis upload_stored : ∀ name data w,
  (storageDriver_upload deps name data w).1 = Fulfilled (stored name).

Lemma settle_all_stored buffer fn tuples : ∀ s,
  (settle deps buffer fn tuples s).1
  = (λ t, (t, Normal (stored_variant stored fn t))) <$> tuples.
Proof.
  induction tuples as [|t tuples IH]; intros s; [done|].
  cbn [settle].
  assert ((variant_task deps buffer fn t s).1
          = Normal (stored_variant stored fn t)) as Ht.
  { destruct t as [[size fmt] d]. unfold variant_task, stored_variant, tuple_key.
    rewrite bind_run. unfold call_processImage. simpl.
    destruct (transform_ok buffer (actualSize size d) fmt (world s)) as [p Hp].
    destruct (imageProcessor_processImage deps buffer (actualSize size d) fmt
                (world s)) as [r w1]. simpl in Hp. subst r.
    unfold uploadFile, try_await, call_upload. simpl.
    pose proof (upload_stored
                  (generateFileName fn (width size) (format_key (type fmt)) (Some d))
                  (Some (p_buffer p)) w1) as Hu.
    destruct (storageDriver_upload deps _ _ w1) as [r w2]. simpl in Hu. by subst r. }
  destruct (variant_task deps buffer fn t s) as [o s1]. simpl in Ht. subst o.
  specialize (IH s1). destruct (settle deps buffer fn tuples s1) as [os s3].
  simpl in *. by rewrite IH.
Qed.

End Named.

(** C4 (amended).  When the original is stored and every transform and
    every storage write succeeds, processImage resolves having walked the
    full product sizes x formats x ratios in size-major, format-middle,
    dpr-minor order, and under each configured format type [generated]
    holds the stored paths of the tuples of that type in that order:
    k * |sizes| * |ratios| entries, k the number of configured formats of
    that type -- |sizes| * |ratios| entries when the configured types are
    pairwise distinct.  With a storage that answers [stored name] for
    [name], the entries are the stored variant names for each size, each
    configured format of the type, each ratio; with pairwise distinct types,
    for each size, each ratio: all ratios of sizes[0] before any of
    sizes[1]. *)
Theorem all_succeed_full_product config buffer fn mime max s path s1 :
  store_original deps buffer fn mime max s = (Normal path, s1) →
  let outcomes := (settle deps buffer fn (combinations config) s1).1 in
  ∃ r s2,
    processImage deps config buffer fn mime max s = (Normal r, s2)
    ∧ original r = path
    ∧ outcomes.*1 = combinations config
    ∧ ∀ key, key ∈ format_keys (formats config) →
        ∃ paths,
          generated r !! key = Some paths
          ∧ paths = successes key outcomes
          ∧ length paths
            = (length (sizes config)
               * (length (filter (λ f, format_key (type f) = key) (formats config))
                  * length (ratios config)))%nat
          ∧ (NoDup (format_keys (formats config)) →
             length paths = (length (sizes config) * length (ratios config))%nat)
          ∧ ∀ stored,
              (∀ name data w,
                 (storageDriver_upload deps name data w).1 = Fulfilled (stored name)) →
              paths = all_variants stored config fn key
              ∧ (NoDup (format_keys (formats config)) →
                 paths = size_major_variants stored config fn key).
Proof.
  intros Hstore outcomes. eexists _, _.
  split; [by apply processImage_stored|]. split; [done|].
  split; [apply settle_tuples|].
  intros key Hkey. exists (successes key outcomes). simpl.
  split; [by rewrite collect_generated_lookup, bool_decide_true by done|].
  split; [done|].
  assert (length (successes key outcomes)
          = (length (sizes config)
             * (length (filter (λ f, format_key (type f) = key) (formats config))
                * length (ratios config)))%nat) as Hlen.
  { unfold outcomes. rewrite length_successes_normal by apply settle_all_normal.
    by rewrite settle_tuples, length_filter_combinations. }
  split; [done|]. split.
  - intros Hnd. rewrite Hlen.
    destruct (filter_unique_key _ _ Hnd Hkey) as [f ->]. simpl. lia.
  - intros stored Hstored.
    assert (successes key outcomes = all_variants stored config fn key) as Heq.
    { unfold outcomes.
      by rewrite (settle_all_stored stored Hstored), successes_stored,
        successes_all_variants. }
    split; [done|]. intros Hnd. rewrite Heq.
    by apply all_variants_size_major.
Qed.

End AllSucceed.

End ProcessImageFacts.

(** ** ImageProcessingConfig: copies on the way in and on the way out *)

Section ConfigFacts.
Context {num : Type}.
Implicit Types (σ : Store num) (this : ImageProcessingConfig).

Lemma fresh_array_unused σ : arrays σ !! fresh (dom (arrays σ)) = None.
Proof. apply not_elem_of_dom, is_fresh. Qed.

Lemma fresh_array_ne σ a elems :
  arrays σ !! a = Some elems → fresh (dom (arrays σ)) ≠ a.
Proof. intros Ha Hf. rewrite <- Hf, fresh_array_unused in Ha. done. Qed.

Lemma mapM_preserved (f g : ref → option (ImageSize num)) elems v :
  (∀ o size, f o = Some size → g o = Some size) →
  mapM f elems = Some v → mapM g elems = Some v.
Proof.
  intros Hfg. rewrite !mapM_Some. intros Hall.
  eapply Forall2_impl; [exact Hall|]. intros o size. apply Hfg.
Qed.

(** Reading [config.sizes] gives the value of the private array. *)
Lemma read_sizes_value this σ : read_sizes this σ = array_value (_sizes this) σ.
Proof.
  unfold read_sizes, get_sizes, array_value, alloc_array.
  destruct (arrays σ !! _sizes this) as [elems|] eqn:E; simpl; [|done].
  by rewrite lookup_insert_eq.
Qed.

Lemma array_value_preserved a arr σ σ' v :
  a ≠ arr → mutates_array arr σ σ' →
  array_value a σ = Some v → array_value a σ' = Some v.
Proof.
  intros Hne [Harr Hobj]. unfold array_value. rewrite (Harr a Hne).
  destruct (arrays σ !! a) as [elems|]; simpl; [|done].
  by apply mapM_preserved.
Qed.

Lemma mutates_array_push arr x σ : mutates_array arr σ (array_push arr x σ).
Proof.
  split; simpl; [|done]. intros a Ha. by rewrite lookup_alter_ne.
Qed.

Lemma mutates_array_alloc_object arr size σ :
  mutates_array arr σ (alloc_object size σ).2.
Proof.
  split; simpl; [done|]. intros o sz Ho.
  rewrite lookup_insert_ne; [done|]. intros <-.
  assert (objects σ !! fresh (dom (objects σ)) = None) as Hf
    by apply not_elem_of_dom, is_fresh.
  congruence.
Qed.

Lemma mutates_array_trans arr σ1 σ2 σ3 :
  mutates_array arr σ1 σ2 → mutates_array arr σ2 σ3 → mutates_array arr σ1 σ3.
Proof.
  intros [A1 O1] [A2 O2]. split.
  - intros a Ha. by rewrite A2, A1.
  - intros o size Ho. by apply O2, O1.
Qed.

(** C9.  After [config.setSizes(arr)], [config.sizes] reads as the value
    [arr] had, and goes on reading so whatever is then done to the array
    [arr]; and when [config.sizes] has been read once, whatever is done to
    the array that read returned, a second read gives the same value. *)
Theorem config_sizes_copy_isolation this arr σ :
  (∀ this' σ1 σ2 v,
     setSizes this arr σ = Some (this', σ1) →
     mutates_array arr σ1 σ2 →
     read_sizes this' σ1 = Some v →
     array_value arr σ = Some v ∧ read_sizes this' σ2 = Some v)
  ∧ (∀ r1 σ1 σ2 v,
       get_sizes this σ = Some (r1, σ1) →
       mutates_array r1 σ1 σ2 →
       array_value r1 σ1 = Some v →
       read_sizes this σ2 = Some v).
Proof.
  split.
  - intros this' σ1 σ2 v Hset Hmut Hread.
    unfold setSizes in Hset.
    destruct (arrays σ !! arr) as [elems|] eqn:Harr; simpl in Hset; [|done].
    injection Hset as <- <-.
    pose proof (fresh_array_ne _ _ _ Harr) as Hne.
    rewrite read_sizes_value in *. simpl in *.
    split.
    + unfold array_value in *. simpl in Hread.
      rewrite lookup_insert_eq in Hread. by rewrite Harr.
    + by apply (array_value_preserved _ arr _ _ _ Hne Hmut).
  - intros r1 σ1 σ2 v Hget Hmut Hv.
    unfold get_sizes in Hget.
    destruct (arrays σ !! _sizes this) as [elems|] eqn:Hs; simpl in Hget; [|done].
    injection Hget as <- <-.
    pose proof (fresh_array_ne _ _ _ Hs) as Hne.
    rewrite read_sizes_value.
    apply (array_value_preserved _ (fresh (dom (arrays σ))) (alloc_array elems σ).2);
      [done | done |].
    unfold array_value in *. simpl in *.
    rewrite lookup_insert_eq in Hv. rewrite lookup_insert_ne by done.
    by rewrite Hs.
Qed.

End ConfigFacts.

(** The copies are of the array, not of the size objects in it: a width
    set through the caller's array shows in [config.sizes]. *)
Example setSizes_shares_the_objects :
  ∃ this' σ1,
    setSizes Mock.config0 Mock.caller_array Mock.caller_store = Some (this', σ1)
    ∧ read_sizes this' σ1 = Some [mkImageSize 100 None]
    ∧ read_sizes this' (object_set_width 1%positive 999 σ1)
      = Some [mkImageSize 999 None].
Proof. eexists _, _. split; [reflexivity|]. split; reflexivity. Qed.

(* ===================================================================== *)
(** * The properties on the mocks of the test suite *)
(* ===================================================================== *)

Lemma generateFileName_format_witness :
  generateFileName (num:=Z) "photo.final.png" 640 "avif" (Some 3)
  = "photo.final_640w@3x.avif"
  ∧ generateFileName (num:=Z) "noext" 640 "avif" (Some 3) = "noext_640w@3x.avif".
Proof.
  destruct (generateFileName_format (num:=Z) "noext" "photo.final" "png" "avif" 640 3)
    as (Hsplit & Hwhole & _).
  split; [exact (Hsplit eq_refl) | exact (Hwhole eq_refl)].
Defined.

(** Against C8 as stated: a buffer that is neither absent nor empty fails
    validation with an ImageValidationError, from the size check. *)
Lemma oversized_buffer_fails_validation :
  ¬ (∀ (buffer : option Buffer) (filename : string) (mimeType : option string)
       (maxBytes : option Z),
       (∃ e, validateFile buffer filename mimeType maxBytes = Throw e
             ∧ instanceof e C_ImageValidationError = true)
       ↔ buffer_missing buffer = true).
Proof.
  intros Hclaim.
  destruct (Hclaim (Some Mock.jpg_bytes) "x.jpg" None (Some 2)) as [Hto _].
  discriminate Hto. eexists. split; reflexivity.
Qed.

Lemma validateFile_first_failure_witness :
  validateFile (Some Mock.jpg_bytes) "x.jpg" (Some "text/plain") (Some 2)
  = Throw (UnsupportedImageFormatError "text/plain")
  ∧ validateFile (Some Mock.jpg_bytes) "x.jpg" (Some "") (Some 0) = Normal tt.
Proof.
  split.
  - destruct (validateFile_first_failure (num:=Z) (Some Mock.jpg_bytes) "x.jpg"
                (Some "text/plain") (Some 2)) as [_ Hrun].
    exact (Hrun Mock.jpg_bytes eq_refl eq_refl).
  - destruct (validateFile_first_failure (num:=Z) (Some Mock.jpg_bytes) "x.jpg"
                (Some "") (Some 0)) as [_ Hrun].
    exact (Hrun Mock.jpg_bytes eq_refl eq_refl).
Defined.

(** Against C1 as stated: the rejection on an empty buffer is not an
    ImageValidationError; it is the ImageProcessingFailedError wrapping it. *)
Lemma empty_buffer_not_validation_error :
  ∃ e s',
    processImage (Mock.deps Mock.ok2 Mock.ok1) Mock.default_config
      (Some []) "x.jpg" None None Mock.start = (Throw e, s')
    ∧ instanceof e C_ImageValidationError = false
    ∧ instanceof e C_ImageProcessingFailedError = true.
Proof. eexists _, _. split; [reflexivity|]. split; reflexivity. Qed.

Lemma empty_buffer_rejected_witness :
  processImage (Mock.deps Mock.ok2 Mock.ok1) Mock.default_config
    (Some []) "x.jpg" None None Mock.start
  = (Throw (ImageProcessingFailedError
              "Pipeline processing failed: File buffer is empty"
              (Some (ImageValidationError "File buffer is empty"))),
     Mock.start).
Proof.
  exact (empty_buffer_rejected (Mock.deps Mock.ok2 Mock.ok1) Mock.default_config
           (Some []) "x.jpg" None None Mock.start eq_refl).
Defined.

(** The specification's partial-failure example, 6 webp and 5 avif; and
    the same with a storage that also fails, without a reason, to write the
    variant (320, webp, 3): 5 webp and 5 avif, and what was written is what
    was returned. *)
Lemma partial_failure_isolated_witness :
  (∃ r s2,
     processImage (Mock.deps Mock.fails_640_avif_2 Mock.ok1) Mock.example_config
       (Some Mock.jpg_bytes) "pic.jpg" None None Mock.start = (Normal r, s2)
     ∧ generated r !! "webp"
       = Some ["pic_320w@1x.webp"; "pic_320w@2x.webp"; "pic_320w@3x.webp";
               "pic_640w@1x.webp"; "pic_640w@2x.webp"; "pic_640w@3x.webp"]
     ∧ generated r !! "avif"
       = Some ["pic_320w@1x.avif"; "pic_320w@2x.avif"; "pic_320w@3x.avif";
               "pic_640w@1x.avif"; "pic_640w@3x.avif"])
  ∧ (∃ r s2,
       processImage
         (Mock.deps_rejecting ReasonUndefined Mock.fails_640_avif_2
            Mock.fails_320_webp_3)
         Mock.example_config (Some Mock.jpg_bytes) "pic.jpg" None None Mock.start
       = (Normal r, s2)
       ∧ generated r !! "webp"
         = Some ["pic_320w@1x.webp"; "pic_320w@2x.webp";
                 "pic_640w@1x.webp"; "pic_640w@2x.webp"; "pic_640w@3x.webp"]
       ∧ generated r !! "avif"
         = Some ["pic_320w@1x.avif"; "pic_320w@2x.avif"; "pic_320w@3x.avif";
                 "pic_640w@1x.avif"; "pic_640w@3x.avif"]
       ∧ Mock.files (world s2) !! "pic_320w@3x.webp" = None
       ∧ Mock.files (world s2) !! "pic_640w@3x.webp" = Some (Some Mock.processed)).
Proof.
  split.
  - destruct (partial_failure_isolated
                (Mock.deps Mock.fails_640_avif_2 Mock.ok1) Mock.example_config
                (Some Mock.jpg_bytes) "pic.jpg" None None Mock.start
                (Mock.mkWorld ∅ 0) "uuid0" (Mock.mkWorld ∅ 1)
                "/uploads/originals/uuid0.jpg"
                (Mock.mkWorld
                   {[ "/uploads/originals/uuid0.jpg" := Some Mock.jpg_bytes ]} 1)
                eq_refl eq_refl eq_refl eq_refl)
      as (r & s2 & Hrun & _ & _ & _ & Hg).
    exists r, s2. split; [exact Hrun|].
    split; rewrite Hg; vm_compute; reflexivity.
  - destruct (partial_failure_isolated
                (Mock.deps_rejecting ReasonUndefined Mock.fails_640_avif_2
                   Mock.fails_320_webp_3)
                Mock.example_config
                (Some Mock.jpg_bytes) "pic.jpg" None None Mock.start
                (Mock.mkWorld ∅ 0) "uuid0" (Mock.mkWorld ∅ 1)
                "/uploads/originals/uuid0.jpg"
                (Mock.mkWorld
                   {[ "/uploads/originals/uuid0.jpg" := Some Mock.jpg_bytes ]} 1)
                eq_refl eq_refl eq_refl eq_refl)
      as (r & s2 & Hrun & _ & Hworld & _ & Hg).
    exists r, s2. split; [exact Hrun|].
    split; [rewrite Hg; vm_compute; reflexivity|].
    split; [rewrite Hg; vm_compute; reflexivity|].
    rewrite Hworld. split; vm_compute; reflexivity.
Defined.

(** The storage of the tests, which rejects with [new Error('Storage
    failed')], and a storage that rejects with nothing
    ([Promise.reject()]): the first rejection is a StorageError, the second
    is not. *)
Lemma original_upload_failure_is_fatal_witness :
  (∃ s',
     processImage (Mock.deps Mock.ok2 (λ _, true)) Mock.default_config
       (Some Mock.jpg_bytes) "test.jpg" None None Mock.start
     = (Throw (StorageError
                 "Failed to upload file /uploads/originals/uuid0.jpg: Storage failed"
                 (Some (mkJsError C_Error "Storage failed" None None))), s')
     ∧ calls s' = [CallValidateImage (Some Mock.jpg_bytes); CallUuid;
                   CallUpload "/uploads/originals/uuid0.jpg" (Some Mock.jpg_bytes)])
  ∧ (∃ e s',
       processImage (Mock.deps_rejecting ReasonUndefined Mock.ok2 (λ _, true))
         Mock.default_config (Some Mock.jpg_bytes) "test.jpg" None None Mock.start
       = (Throw e, s')
       ∧ e = ImageProcessingFailedError
               "Pipeline processing failed: Cannot read properties of undefined (reading 'message')"
               (Some (TypeError
                        "Cannot read properties of undefined (reading 'message')"))
       ∧ instanceof e C_StorageError = false
       ∧ calls s' = [CallValidateImage (Some Mock.jpg_bytes); CallUuid;
                     CallUpload "/uploads/originals/uuid0.jpg"
                       (Some Mock.jpg_bytes)]).
Proof.
  split.
  - destruct (original_upload_failure_is_fatal
                (Mock.deps Mock.ok2 (λ _, true)) Mock.default_config
                (Some Mock.jpg_bytes) "test.jpg" None None Mock.start
                (Mock.mkWorld ∅ 0) "uuid0" (Mock.mkWorld ∅ 1)
                (ReasonError (mkJsError C_Error "Storage failed" None None))
                (Mock.mkWorld ∅ 1)
                eq_refl eq_refl eq_refl eq_refl)
      as (s' & Hrun & _ & Hcalls & _).
    exists s'. split; [exact Hrun | exact Hcalls].
  - destruct (original_upload_failure_is_fatal
                (Mock.deps_rejecting ReasonUndefined Mock.ok2 (λ _, true))
                Mock.default_config
                (Some Mock.jpg_bytes) "test.jpg" None None Mock.start
                (Mock.mkWorld ∅ 0) "uuid0" (Mock.mkWorld ∅ 1)
                ReasonUndefined (Mock.mkWorld ∅ 1)
                eq_refl eq_refl eq_refl eq_refl)
      as (s' & Hrun & _ & Hcalls & _).
    eexists _, s'. split; [exact Hrun|]. split; [reflexivity|].
    split; [reflexivity | exact Hcalls].
Defined.

(** Against C4 as stated: with two configured formats of type webp, one
    size and one ratio, [generated.webp] has two entries, not 1 * 1. *)
Lemma repeated_format_type_repeats_entries :
  ∃ r s',
    processImage (Mock.deps Mock.ok2 Mock.ok1) Mock.twice_webp_config
      (Some Mock.jpg_bytes) "pic.jpg" None None Mock.start = (Normal r, s')
    ∧ generated r !! "webp" = Some ["pic_320w@1x.webp"; "pic_320w@1x.webp"]
    ∧ (length (sizes Mock.twice_webp_config)
       * length (ratios Mock.twice_webp_config) = 1)%nat.
Proof. eexists _, _. split; [reflexivity|]. split; reflexivity. Qed.

(** The specification's completeness example: 6 webp and 6 avif, ordered. *)
Lemma all_succeed_full_product_witness :
  ∃ r s2,
    processImage (Mock.deps Mock.ok2 Mock.ok1) Mock.example_config
      (Some Mock.jpg_bytes) "pic.jpg" None None Mock.start = (Normal r, s2)
    ∧ generated r !! "webp"
      = Some ["pic_320w@1x.webp"; "pic_320w@2x.webp"; "pic_320w@3x.webp";
              "pic_640w@1x.webp"; "pic_640w@2x.webp"; "pic_640w@3x.webp"]
    ∧ generated r !! "avif"
      = Some ["pic_320w@1x.avif"; "pic_320w@2x.avif"; "pic_320w@3x.avif";
              "pic_640w@1x.avif"; "pic_640w@2x.avif"; "pic_640w@3x.avif"].
Proof.
  destruct (all_succeed_full_product
              (Mock.deps Mock.ok2 Mock.ok1)
              (λ b size f w, ex_intro _ _ eq_refl)
              (λ name data w, ex_intro _ _ eq_refl)
              Mock.example_config
              (Some Mock.jpg_bytes) "pic.jpg" None None Mock.start
              "/uploads/originals/uuid0.jpg"
              (store_original (Mock.deps Mock.ok2 Mock.ok1)
                 (Some Mock.jpg_bytes) "pic.jpg" None None Mock.start).2
              eq_refl)
    as (r & s2 & Hrun & _ & _ & Hg).
  exists r, s2. split; [exact Hrun|]. split.
  - destruct (Hg "webp") as (paths & -> & _ & _ & _ & Hnamed);
      [vm_compute; by left|].
    destruct (Hnamed (λ name, name) (λ name data w, eq_refl)) as [-> _].
    reflexivity.
  - destruct (Hg "avif") as (paths & -> & _ & _ & _ & Hnamed);
      [vm_compute; right; by left|].
    destruct (Hnamed (λ name, name) (λ name data w, eq_refl)) as [-> _].
    reflexivity.
Defined.

Lemma every_format_has_a_key_witness :
  ∃ g,
    processImage (Mock.deps Mock.ok2 Mock.ok1) Mock.no_sizes_config
      (Some Mock.jpg_bytes) "pic.jpg" None None Mock.start
    = (Normal (mkResult "/uploads/originals/uuid0.jpg" g),
       (store_original (Mock.deps Mock.ok2 Mock.ok1)
          (Some Mock.jpg_bytes) "pic.jpg" None None Mock.start).2)
    ∧ g !! "webp" = Some [] ∧ g !! "avif" = Some [] ∧ g !! "jpeg" = None.
Proof.
  destruct (every_format_has_a_key (Mock.deps Mock.ok2 Mock.ok1)
              Mock.no_sizes_config (Some Mock.jpg_bytes) "pic.jpg" None None
              Mock.start) as [_ Hempty].
  destruct (Hempty (or_introl eq_refl) _ _ eq_refl) as (g & Hrun & Hg).
  exists g. split; [exact Hrun|].
  rewrite !Hg. repeat split.
Defined.


Lemma rejections_are_storage_or_processing_witness :
  processImage (Mock.deps Mock.ok2 Mock.ok1) Mock.default_config
    (Some Mock.jpg_bytes) "notes.txt" None None Mock.start
  = (Throw (ImageProcessingFailedError
              "Pipeline processing failed: Unsupported image format: .txt"
              (Some (UnsupportedImageFormatError ".txt"))), Mock.start)
  ∧ ∃ cause,
      processImage_try (Mock.deps Mock.ok2 (λ _, true)) Mock.default_config
        (Some Mock.jpg_bytes) "test.jpg" None None Mock.start
      = (Throw cause,
         (processImage (Mock.deps Mock.ok2 (λ _, true)) Mock.default_config
            (Some Mock.jpg_bytes) "test.jpg" None None Mock.start).2)
      ∧ instanceof cause C_StorageError = true.
Proof.
  split.
  - destruct (rejections_are_storage_or_processing (Mock.deps Mock.ok2 Mock.ok1)
                Mock.default_config (Some Mock.jpg_bytes) "notes.txt" None None
                Mock.start) as (_ & _ & Hwrap).
    exact (Hwrap _ eq_refl).
  - destruct (rejections_are_storage_or_processing (Mock.deps Mock.ok2 (λ _, true))
                Mock.default_config (Some Mock.jpg_bytes) "test.jpg" None None
                Mock.start) as (Hrej & _ & _).
    destruct (Hrej _ _ eq_refl) as (cause & Htry & -> & _).
    exists cause. split; [exact Htry|].
    vm_compute in Htry. by injection Htry as <-.
Defined.

(** The configuration's test: [setSizes(newSizes)], then
    [newSizes.push({ width: 200 })]; [config.sizes] still has one size. *)
Lemma config_sizes_copy_isolation_witness :
  ∃ this' σ1,
    setSizes Mock.config0 Mock.caller_array Mock.caller_store = Some (this', σ1)
    ∧ let '(o, σ1') := alloc_object (mkImageSize 200 None) σ1 in
      let σ2 := array_push Mock.caller_array o σ1' in
      array_value Mock.caller_array σ2
      = Some [mkImageSize 100 None; mkImageSize 200 None]
      ∧ read_sizes this' σ2 = Some [mkImageSize 100 None].
Proof.
  eexists _, _. split; [reflexivity|].
  split; [reflexivity|].
  destruct (config_sizes_copy_isolation Mock.config0 Mock.caller_array
              Mock.caller_store) as [Hset _].
  refine (proj2 (Hset _ _ _ [mkImageSize 100 None] eq_refl _ eq_refl)).
  eapply mutates_array_trans;
    [apply mutates_array_alloc_object | apply mutates_array_push].
Defined.

(* ===================================================================== *)
(** * Further properties of the sources *)
(* ===================================================================== *)

(** ** File names *)

Lemma append_cons a s t : String a s +:+ t = String a (s +:+ t).
Proof. reflexivity. Qed.

Lemma append_nil_r s : s +:+ "" = s.
Proof. induction s as [|a s IH]; [done|]. by rewrite append_cons, IH. Qed.

Lemma append_inj_l b x y : b +:+ x = b +:+ y → x = y.
Proof.
  induction b as [|a b IH]; [done|]. rewrite !append_cons.
  intros [= Heq]. by apply IH.
Qed.

Lemma contains_append c u v :
  contains c (u +:+ v) = contains c u || contains c v.
Proof.
  induction u as [|a u IH]; [done|].
  rewrite append_cons. simpl. by rewrite IH, orb_assoc.
Qed.

(** A string in which [c] occurs splits at the last occurrence. *)
Lemma last_occurrence c s :
  contains c s = true → ∃ b e, s = b +:+ String c e ∧ contains c e = false.
Proof.
  induction s as [|a s IH]; simpl; [done|].
  destruct (contains c s) eqn:Hs.
  - intros _. destruct IH as (b & e & -> & He); [done|].
    by exists (String a b), e.
  - rewrite orb_false_r. intros ->%Ascii.eqb_eq. by exists "", s.
Qed.

Lemma substring_all t : String.substring 0 (String.length t) t = t.
Proof. induction t as [|a t IH]; simpl; [done | by rewrite IH]. Qed.

Lemma substring_suffix b t :
  String.substring (String.length b) (String.length t) (b +:+ t) = t.
Proof.
  induction b as [|a b IH]; [apply substring_all | by rewrite append_cons].
Qed.

Lemma getFileExtension_last b e :
  contains "." e = false → getFileExtension (b +:+ String "." e) = String "." e.
Proof.
  intros He. unfold getFileExtension. rewrite (lastIndexOf_last _ _ _ He).
  destruct (Z.of_nat (String.length b) =? -1) eqn:E; [apply Z.eqb_eq in E; lia|].
  unfold substring. rewrite length_append.
  replace (Z.min _ _) with (Z.of_nat (String.length b)) by lia.
  replace (Z.max _ _ - _)
    with (Z.of_nat (String.length (String "." e))) by lia.
  rewrite !Nat2Z.id. apply substring_suffix.
Qed.

Lemma getFileExtension_none s : contains "." s = false → getFileExtension s = "".
Proof. intros Hs. unfold getFileExtension. by rewrite (lastIndexOf_absent _ _ Hs). Qed.

(** X1.  A file name is its base name followed by its extension:
    getBaseName and getFileExtension cut it at one place and lose nothing. *)
Theorem basename_extension_split (filename : string) :
  getBaseName filename +:+ getFileExtension filename = filename.
Proof.
  destruct (contains "." filename) eqn:Hdot.
  - destruct (last_occurrence _ _ Hdot) as (b & e & -> & He).
    by rewrite getBaseName_strips, getFileExtension_last.
  - rewrite getBaseName_whole, getFileExtension_none by done.
    apply append_nil_r.
Qed.

(** X2.  The extension of a name is empty exactly when the name has no
    '.'; otherwise it is the last '.' with what follows it, as written,
    and holds no other '.'. *)
Theorem extension_shape (filename : string) :
  (contains "." filename = false ↔ getFileExtension filename = "")
  ∧ (contains "." filename = true →
     ∃ b e, filename = b +:+ "." +:+ e ∧ contains "." e = false
            ∧ getFileExtension filename = "." +:+ e
            ∧ getBaseName filename = b).
Proof.
  split; [split|].
  - apply getFileExtension_none.
  - intros Hext. destruct (contains "." filename) eqn:Hdot; [|done].
    destruct (last_occurrence _ _ Hdot) as (b & e & -> & He).
    by rewrite getFileExtension_last in Hext.
  - intros Hdot. destruct (last_occurrence _ _ Hdot) as (b & e & -> & He).
    exists b, e. split; [done|]. split; [done|].
    split; [by apply getFileExtension_last | by apply getBaseName_strips].
Qed.

Lemma extension_shape_witness :
  ∃ b e, "archive.tar.GZ" = b +:+ "." +:+ e
         ∧ getFileExtension "archive.tar.GZ" = "." +:+ e
         ∧ getBaseName "archive.tar.GZ" = b.
Proof.
  destruct (extension_shape "archive.tar.GZ") as [_ Hsplit].
  destruct (Hsplit eq_refl) as (b & e & Hname & _ & Hext & Hbase).
  by exists b, e.
Defined.

(** *** Variant names of integer widths and ratios *)

Lemma split_at c u v r r' :
  contains c u = false → contains c v = false →
  u +:+ String c r = v +:+ String c r' → u = v ∧ r = r'.
Proof.
  revert v. induction u as [|a u IH]; intros [|b v]; simpl.
  - by intros _ _ [= ->].
  - intros _ [Hb _]%orb_false_iff. rewrite append_cons. intros [= <- _].
    by rewrite Ascii.eqb_refl in Hb.
  - intros [Ha _]%orb_false_iff _. rewrite append_cons. intros [= -> _].
    by rewrite Ascii.eqb_refl in Ha.
  - intros [_ Hu]%orb_false_iff [_ Hv]%orb_false_iff. rewrite !append_cons.
    intros [= -> Heq]. destruct (IH v Hu Hv Heq) as [-> ->]. done.
Qed.

Ltac decimal_without c :=
  let d := fresh "d" in
  let IH := fresh "IH" in
  intros d; induction d as [|d IH|d IH|d IH|d IH|d IH|d IH|d IH|d IH|d IH|d IH];
  simpl; [reflexivity | exact IH ..].

Lemma uint_without_w : ∀ d, contains "w" (NilEmpty.string_of_uint d) = false.
Proof. decimal_without "w"%char. Qed.

Lemma uint_without_x : ∀ d, contains "x" (NilEmpty.string_of_uint d) = false.
Proof. decimal_without "x"%char. Qed.

Lemma num_to_string_without_w (z : Z) : contains "w" (num_to_string z) = false.
Proof.
  unfold num_to_string; simpl. unfold NilZero.string_of_int, NilZero.string_of_uint.
  destruct (Z.to_int z) as [[]|[]]; simpl; try reflexivity; apply uint_without_w.
Qed.

Lemma num_to_string_without_x (z : Z) : contains "x" (num_to_string z) = false.
Proof.
  unfold num_to_string; simpl. unfold NilZero.string_of_int, NilZero.string_of_uint.
  destruct (Z.to_int z) as [[]|[]]; simpl; try reflexivity; apply uint_without_x.
Qed.

Lemma to_int_proper (z : Z) : Z.to_int z ≠ Decimal.Pos Decimal.Nil
                              ∧ Z.to_int z ≠ Decimal.Neg Decimal.Nil.
Proof.
  destruct z as [|p|p]; simpl; split; try discriminate;
    intros [= Hp]; by apply (DecimalPos.Unsigned.to_uint_nonnil p).
Qed.

(** Integers are rendered one to one. *)
Lemma num_to_string_inj (a b : Z) : num_to_string a = num_to_string b → a = b.
Proof.
  unfold num_to_string; simpl. intros Heq. apply DecimalZ.to_int_inj.
  destruct (to_int_proper a) as [Ha1 Ha2]. destruct (to_int_proper b) as [Hb1 Hb2].
  pose proof (NilZero.isi _ Ha1 Ha2) as Hpa. pose proof (NilZero.isi _ Hb1 Hb2) as Hpb.
  rewrite Heq in Hpa. congruence.
Qed.

Lemma format_key_inj t1 t2 : format_key t1 = format_key t2 → t1 = t2.
Proof. by destruct t1, t2. Qed.

Lemma variant_name_inj (originalName : string) (w1 w2 d1 d2 : Z)
    (t1 t2 : FormatType) :
  generateFileName originalName w1 (format_key t1) (Some d1)
  = generateFileName originalName w2 (format_key t2) (Some d2) →
  w1 = w2 ∧ t1 = t2 ∧ d1 = d2.
Proof.
  unfold generateFileName. intros Heq.
  apply append_inj_l in Heq. injection Heq as Heq.
  change ("w@" +:+ ?r) with (String "w" ("@" +:+ r)) in Heq.
  apply split_at in Heq as [Hw Heq]; try apply num_to_string_without_w.
  injection Heq as Heq.
  change ("x." +:+ ?r) with (String "x" ("." +:+ r)) in Heq.
  apply split_at in Heq as [Hd Heq]; try apply num_to_string_without_x.
  injection Heq as Heq.
  split; [by apply num_to_string_inj|].
  split; [by apply format_key_inj | by apply num_to_string_inj].
Qed.

(** X3.  With integer widths and ratios, variants of one original that
    differ in width, in format type or in ratio get different names (the
    height of a size plays no part in the name). *)
Theorem variant_names_distinct (originalName : string) (w1 w2 d1 d2 : Z)
    (t1 t2 : FormatType) :
  w1 ≠ w2 ∨ t1 ≠ t2 ∨ d1 ≠ d2 →
  generateFileName originalName w1 (format_key t1) (Some d1)
  ≠ generateFileName originalName w2 (format_key t2) (Some d2).
Proof.
  intros Hne Heq. apply variant_name_inj in Heq as (? & ? & ?). tauto.
Qed.

Lemma variant_names_distinct_witness :
  generateFileName "pic.jpg" 32 (format_key webp) (Some 1)
  ≠ generateFileName "pic.jpg" 3 (format_key webp) (Some 21).
Proof.
  apply variant_names_distinct. left. discriminate.
Defined.

(** ** Validation *)

Section ValidatorFacts.
Context {num : Type} `{JsNumber num}.

Lemma includes_In arr x : includes arr x = true ↔ In x arr.
Proof.
  unfold includes. rewrite existsb_exists. split.
  - intros (y & Hy & ->%String.eqb_eq). done.
  - intros Hx. exists x. split; [done | apply String.eqb_refl].
Qed.

(** X4.  validateExtension looks at the last extension only, whatever its
    letter case: a name "b.e" passes exactly when ".e" in lower case is one
    of the supported extensions, and is otherwise rejected with an
    UnsupportedImageFormatError that quotes ".e" as written; a name without
    '.' is always rejected (as format ''). *)
Theorem validateExtension_decides (filename b e : string) :
  (contains "." e = false →
   (validateExtension (b +:+ "." +:+ e) = Normal tt
    ↔ In (toLowerCase ("." +:+ e)) SUPPORTED_EXTENSIONS)
   ∧ (¬ In (toLowerCase ("." +:+ e)) SUPPORTED_EXTENSIONS →
      validateExtension (b +:+ "." +:+ e)
      = Throw (UnsupportedImageFormatError ("." +:+ e))))
  ∧ (contains "." filename = false →
     validateExtension filename = Throw (UnsupportedImageFormatError "")).
Proof.
  split.
  - intros He. unfold validateExtension.
    change ("." +:+ e) with (String "." e). rewrite (getFileExtension_last _ _ He).
    rewrite <- includes_In.
    destruct (includes SUPPORTED_EXTENSIONS (toLowerCase (String "." e))); simpl.
    + split; [done|]. by intros [].
    + split; [split; [done|done]|done].
  - intros Hf. unfold validateExtension. by rewrite (getFileExtension_none _ Hf).
Qed.

Lemma validateExtension_decides_witness :
  validateExtension "holiday.photo.JPeG" = Normal tt
  ∧ validateExtension "notes.Txt" = Throw (UnsupportedImageFormatError ".Txt")
  ∧ validateExtension "noextension" = Throw (UnsupportedImageFormatError "").
Proof.
  split; [|split].
  - destruct (validateExtension_decides "" "holiday.photo" "JPeG") as [Hext _].
    destruct (Hext eq_refl) as [[_ Hok] _]. apply Hok. vm_compute. tauto.
  - destruct (validateExtension_decides "" "notes" "Txt") as [Hext _].
    destruct (Hext eq_refl) as [_ Hbad]. apply Hbad. vm_compute. intuition discriminate.
  - destruct (validateExtension_decides "noextension" "" "") as [_ Hnone].
    exact (Hnone eq_refl).
Defined.

(** X5.  What passes validateFile: a buffer that is present and not
    empty, a supported extension, a supported MIME type when one is given
    (and is not ''), and, when a limit is given (and is not 0), a length
    that does not exceed it. *)
Theorem validateFile_accepts (buffer : option Buffer) (filename : string)
    (mimeType : option string) (maxSizeInBytes : option num) :
  validateFile buffer filename mimeType maxSizeInBytes = Normal tt
  ↔ buffer_missing buffer = false
    ∧ validateExtension filename = Normal tt
    ∧ (∀ m, mimeType = Some m → m ≠ "" → validateMimeType m = Normal tt)
    ∧ (∀ b limit, buffer = Some b → maxSizeInBytes = Some limit →
         num_truthy limit = true →
         num_gt (num_of_Z (Z.of_nat (length b))) limit = false).
Proof.
  unfold validateFile, buffer_missing. destruct buffer as [b|]; [|by split; [|intros []]].
  destruct (length b =? 0)%nat; [by split; [|intros []]|].
  destruct (validateExtension filename) as [[]|e1]; simpl;
    [|by split; [|intros (_ & ? & _)]].
  assert (∀ m, m ≠ "" ↔ str_truthy m = true) as Htruthy.
  { intros m. unfold str_truthy. by destruct (String.eqb_spec m ""); split. }
  assert (∀ limit, validateFileSize b (Some limit) = Normal tt
                   ↔ num_gt (num_of_Z (Z.of_nat (length b))) limit = false) as Hsize.
  { intros limit. unfold validateFileSize. by destruct (num_gt _ _). }
  split.
  - intros Hok. split; [done|]. split; [done|]. split.
    + intros m -> Hm%Htruthy. rewrite Hm in Hok.
      by destruct (validateMimeType m) as [[]|].
    + intros b' limit [= <-] -> Hl. rewrite Hl in Hok. apply Hsize.
      destruct mimeType as [m|]; [destruct (str_truthy m)|]; simpl in Hok;
        try destruct (validateMimeType m) as [[]|]; simpl in Hok; try done;
        by destruct (validateFileSize b (Some limit)) as [[]|].
  - intros (_ & _ & Hmime & Hlimit).
    assert ((match mimeType with
             | Some m => if str_truthy m then validateMimeType m else Normal tt
             | None => Normal tt
             end) = Normal tt) as ->.
    { destruct mimeType as [m|]; [|done].
      destruct (str_truthy m) eqn:Hm; [|done]. apply Hmime; [done|]. by apply Htruthy. }
    simpl. destruct maxSizeInBytes as [limit|]; [|done].
    destruct (num_truthy limit) eqn:Hl; [|done].
    apply Hsize. by apply Hlimit.
Qed.

End ValidatorFacts.

Lemma validateFile_accepts_witness :
  validateFile (Some Mock.jpg_bytes) "x.jpg" (Some "image/PNG") (Some 3) = Normal tt.
Proof.
  apply (validateFile_accepts (num:=Z)). split; [reflexivity|].
  split; [reflexivity|]. split.
  - by intros m [= <-] _.
  - by intros b limit [= <-] [= <-] _.
Defined.

(** ** The pipeline's calls *)

Section PipelineCalls.
Context {num : Type} `{JsNumber num} {World : Type}.
Variable deps : Collaborators num World.
Implicit Types (config : ConfigView num) (buffer : option Buffer)
  (s : PipeState num World) (error : JsError).

(** X6.  A buffer that passes validateFile but that the image processor
    does not take for an image: processImage rejects with the
    ImageProcessingFailedError 'Invalid image file' (unwrapped, without
    cause) when validateImage answers false, and with what the outer catch
    makes of its error when validateImage itself rejects.  Either way the
    only call made is validateImage: no uuid is drawn, nothing is stored,
    nothing is transformed. *)
Theorem undecodable_image_rejected config buffer fn mime max s :
  validateFile buffer fn mime max = Normal tt →
  (∀ w1,
     imageProcessor_validateImage deps buffer (world s) = (Normal false, w1) →
     processImage deps config buffer fn mime max s
     = (Throw (ImageProcessingFailedError "Invalid image file" None),
        mkPipeState w1 (calls s ++ [CallValidateImage buffer])))
  ∧ (∀ error w1,
       imageProcessor_validateImage deps buffer (world s) = (Throw error, w1) →
       processImage deps config buffer fn mime max s
       = (Throw (rethrown error),
          mkPipeState w1 (calls s ++ [CallValidateImage buffer]))).
Proof.
  intros Hv. split.
  - intros w1 Hvalid. rewrite processImage_run. unfold processImage_try.
    rewrite bind_run. unfold sync. rewrite Hv.
    rewrite bind_run. unfold call_validateImage. by rewrite Hvalid.
  - intros error w1 Hvalid. rewrite processImage_run. unfold processImage_try.
    rewrite bind_run. unfold sync. rewrite Hv.
    rewrite bind_run. unfold call_validateImage. by rewrite Hvalid.
Qed.

Lemma task_calls_shape buffer fn (t : Tuple) s :
  ∃ rest,
    calls (variant_task deps buffer fn t s).2
    = calls s ++ CallProcessImage buffer (actualSize t.1.1 t.2) t.1.2 :: rest
    ∧ (rest = []
       ∨ ∃ data,
           rest = [CallUpload
                     (generateFileName fn (width t.1.1) (format_key (type t.1.2))
                        (Some t.2))
                     (Some data)]).
Proof.
  destruct t as [[size fmt] d]. unfold variant_task. rewrite bind_run.
  unfold call_processImage. simpl.
  destruct (imageProcessor_processImage deps buffer (actualSize size d) fmt (world s))
    as [[p|e] w1]; [|exists []; by split; [|left]].
  unfold uploadFile, try_await, call_upload. simpl.
  destruct (storageDriver_upload deps _ _ w1) as [[path|[e| |]] w2]; simpl;
    eexists [_]; (split; [by rewrite <- app_assoc | right; by eexists]).
Qed.

Lemma settle_log buffer fn (all tuples : list Tuple) : ∀ s,
  (∀ t, t ∈ tuples → t ∈ all) →
  ∃ new,
    calls (settle deps buffer fn tuples s).2 = calls s ++ new
    ∧ Forall (variant_call buffer fn all) new
    ∧ length (filter is_console_error new)
      = length (failures (settle deps buffer fn tuples s).1).
Proof.
  induction tuples as [|t tuples IH]; intros s Hall.
  - exists []. by rewrite app_nil_r.
  - cbn [settle].
    destruct (task_calls_shape buffer fn t s) as (rest & Hcalls & Hrest).
    destruct (variant_task deps buffer fn t s) as [o s1]. simpl in Hcalls.
    set (s2 := match o with
               | Normal _ => s1
               | Throw error => (variant_failed t.1.1 t.1.2 t.2 error s1).2
               end).
    assert (∃ logged, calls s2 = calls s1 ++ logged
                      ∧ Forall (variant_call buffer fn all) logged
                      ∧ length (filter is_console_error logged)
                        = length (failures [(t, o)])) as (lg & Hlg & Hvar & Hcount).
    { destruct o as [path|e]; [exists []; by rewrite app_nil_r|].
      eexists [_]. split; [done|]. split; [by repeat constructor | done]. }
    destruct (IH s2) as (new & Hnew & Hfor & Hfail).
    { intros t' Ht'. apply Hall. by right. }
    destruct (settle deps buffer fn tuples s2) as [outcomes s3].
    simpl in *. eexists (_ :: rest ++ lg ++ new). split; [|split].
    + rewrite Hnew, Hlg, Hcalls. by rewrite <- !app_assoc.
    + assert (t ∈ all) as Ht by (apply Hall; left).
      constructor; [split; [done | by exists t]|].
      apply Forall_app. split; [|by apply Forall_app].
      destruct Hrest as [-> | [data ->]]; [done|].
      repeat constructor; [by eexists | by exists t].
    + rewrite filter_cons. simpl. rewrite !filter_app, !length_app, Hfail.
      assert (filter is_console_error rest = []) as ->
        by (destruct Hrest as [-> | [data ->]]; done).
      simpl. destruct o as [path|e]; simpl in *; lia.
Qed.

(** X7.  A call that resolves has made these calls and no other:
    validateImage on the buffer, one uuid, the upload of the unmodified
    buffer under "/uploads/originals/<uuid><extension of the file name>",
    and then, for tuples of the combination space only, transforms of that
    same buffer at the tuple's effective size, uploads under the tuple's
    variant name, and logged errors.  The [original] it returns is the path
    it asked the storage for, whatever path the storage answered. *)
Theorem resolving_call_log config buffer fn mime max s w1 uuid w2 answered w3 :
  validateFile buffer fn mime max = Normal tt →
  imageProcessor_validateImage deps buffer (world s) = (Normal true, w1) →
  uuidv4 deps w1 = (uuid, w2) →
  let originalPath := "/uploads/originals" +:+ "/" +:+ uuid +:+ getFileExtension fn in
  storageDriver_upload deps originalPath buffer w2 = (Fulfilled answered, w3) →
  ∃ r s' later,
    processImage deps config buffer fn mime max s = (Normal r, s')
    ∧ original r = originalPath
    ∧ calls s' = calls s ++ [CallValidateImage buffer; CallUuid;
                             CallUpload originalPath buffer] ++ later
    ∧ Forall (variant_call buffer fn (combinations config)) later.
Proof.
  intros Hv Hvalid Huuid originalPath Hup.
  pose proof (store_original_run _ _ _ _ _ _ _ _ _ _ _ Hv Hvalid Huuid Hup) as Hstore.
  fold originalPath in Hstore.
  destruct (settle_log buffer fn (combinations config) (combinations config)
              (mkPipeState w3 (calls s ++ [CallValidateImage buffer; CallUuid;
                                           CallUpload originalPath buffer])))
    as (later & Hcalls & Hfor & _); [done|].
  eexists _, _, later. split; [by apply processImage_stored|].
  split; [done|]. split; [|done]. simpl in *. by rewrite Hcalls, <- app_assoc.
Qed.

Lemma length_successes_failures key (outcomes : list (@Tuple num * Completion string)) :
  (length (successes key outcomes)
   + length (filter (λ t : @Tuple num, tuple_key t = key) (failures outcomes))
   = length (filter (λ t : @Tuple num, tuple_key t = key) outcomes.*1))%nat.
Proof.
  induction outcomes as [|[t o] outcomes IH]; [done|].
  rewrite successes_cons, fmap_cons, length_app. simpl.
  destruct o as [path|e]; simpl.
  - rewrite filter_cons. destruct (decide (tuple_key t = key)) as [Hk|Hk].
    + rewrite bool_decide_true by done. simpl. lia.
    + rewrite bool_decide_false by done. simpl. lia.
  - rewrite !filter_cons. destruct (decide (tuple_key t = key)); simpl; lia.
Qed.

(** X8.  Every tuple is accounted for.  After a call that stored its
    original, for each configured format type the entries of [generated]
    and the tuples of that type that failed add up to
    k * |sizes| * |ratios| (k the number of configured formats of that
    type), so there are never more entries than that; one error is logged
    per failed tuple; and when no error is logged every configured type has
    all its entries. *)
Theorem every_tuple_accounted config buffer fn mime max s path s1 :
  store_original deps buffer fn mime max s = (Normal path, s1) →
  let failed := failures (settle deps buffer fn (combinations config) s1).1 in
  let full key :=
    (length (sizes config)
     * (length (filter (λ f, format_key (type f) = key) (formats config))
        * length (ratios config)))%nat in
  ∃ r s' later,
    processImage deps config buffer fn mime max s = (Normal r, s')
    ∧ calls s' = calls s1 ++ later
    ∧ length (filter is_console_error later) = length failed
    ∧ ∀ key, key ∈ format_keys (formats config) →
        ∃ paths,
          generated r !! key = Some paths
          ∧ (length paths
             + length (filter (λ t : @Tuple num, tuple_key t = key) failed)
             = full key)%nat
          ∧ (length paths ≤ full key)%nat
          ∧ (filter is_console_error later = [] → length paths = full key).
Proof.
  intros Hstore failed full.
  destruct (settle_log buffer fn (combinations config) (combinations config) s1)
    as (later & Hcalls & _ & Hlogged); [done|].
  eexists _, _, later. split; [by apply processImage_stored|].
  split; [done|]. split; [done|].
  intros key Hkey. eexists. simpl.
  split; [by rewrite collect_generated_lookup, bool_decide_true by done|].
  pose proof (length_successes_failures key
                (settle deps buffer fn (combinations config) s1).1) as Hsum.
  rewrite settle_tuples, length_filter_combinations in Hsum.
  fold failed in Hsum, Hlogged. fold (full key) in Hsum.
  split; [done|]. split; [lia|].
  intros Hnone. rewrite Hnone in Hlogged. simpl in Hlogged.
  destruct failed; [simpl in Hsum; lia | done].
Qed.

End PipelineCalls.

(** ** ImageProcessingConfig: what is shared and what is not *)

Section ConfigSharing.
Context {num : Type}.
Implicit Types (σ : Store num) (this : ImageProcessingConfig).

Lemma array_value_push arr x σ v size :
  array_value arr σ = Some v → objects σ !! x = Some size →
  array_value arr (array_push arr x σ) = Some (v ++ [size]).
Proof.
  unfold array_value, array_push. simpl. rewrite lookup_alter_eq.
  destruct (arrays σ !! arr) as [elems|]; simpl; [|done].
  rewrite !mapM_Some. intros Hv Hx. apply Forall2_app; [done|].
  by repeat constructor.
Qed.

(** X9.  The constructor does not copy [config.sizes]: a configuration
    built on the caller's array reads, at any later time, as the value that
    array then has, so an element the caller pushes afterwards shows in
    [config.sizes] (setSizes, which copies, is the one that isolates). *)
Theorem constructor_shares_sizes (arr x : ref) (σ : Store num) :
  (∀ σ', read_sizes (new_config arr) σ' = array_value arr σ')
  ∧ (∀ v size,
       array_value arr σ = Some v → objects σ !! x = Some size →
       read_sizes (new_config arr) (array_push arr x σ) = Some (v ++ [size])).
Proof.
  split; [intros σ'; apply read_sizes_value|].
  intros v size Hv Hx. rewrite read_sizes_value. by apply array_value_push.
Qed.

(** X10.  addSize pushes onto the private array in place: [config.sizes]
    then reads as before with the new size at the end, every other array --
    a copy the getter returned earlier among them -- is as it was, and an
    array shared with the caller through the constructor has grown too. *)
Theorem addSize_in_place this (x : ref) σ this' σ' v size :
  addSize this x σ = Some (this', σ') →
  read_sizes this σ = Some v → objects σ !! x = Some size →
  this' = this
  ∧ read_sizes this σ' = Some (v ++ [size])
  ∧ array_value (_sizes this) σ' = Some (v ++ [size])
  ∧ ∀ a, a ≠ _sizes this → array_value a σ' = array_value a σ.
Proof.
  unfold addSize. intros Hadd Hv Hx.
  rewrite read_sizes_value in Hv.
  destruct (arrays σ !! _sizes this) as [elems|] eqn:Hs; simpl in Hadd; [|done].
  injection Hadd as <- <-. split; [done|].
  assert (array_value (_sizes this)
            (mkStore (<[_sizes this := elems ++ [x]]> (arrays σ)) (objects σ))
          = Some (v ++ [size])) as Hnew.
  { unfold array_value in *. simpl. rewrite lookup_insert_eq. simpl.
    rewrite Hs in Hv. simpl in Hv. rewrite mapM_Some in *.
    apply Forall2_app; [done | by repeat constructor]. }
  split; [by rewrite read_sizes_value|]. split; [done|].
  intros a Ha. unfold array_value. simpl. by rewrite lookup_insert_ne.
Qed.

End ConfigSharing.

Lemma constructor_shares_sizes_witness :
  read_sizes (new_config Mock.caller_array)
    (array_push Mock.caller_array 2%positive Mock.caller_store)
  = Some [mkImageSize 100 None; mkImageSize 320 None].
Proof.
  destruct (constructor_shares_sizes Mock.caller_array 2%positive Mock.caller_store)
    as [_ Hpush].
  exact (Hpush [mkImageSize 100 None] (mkImageSize 320 None) eq_refl eq_refl).
Defined.

Lemma addSize_in_place_witness :
  ∃ σ',
    addSize (new_config Mock.caller_array) 2%positive Mock.caller_store
    = Some (new_config Mock.caller_array, σ')
    ∧ array_value Mock.caller_array σ'
      = Some [mkImageSize 100 None; mkImageSize 320 None].
Proof.
  eexists. split; [reflexivity|].
  refine (proj1 (proj2 (proj2 (addSize_in_place (new_config Mock.caller_array)
                                 2%positive Mock.caller_store _ _
                                 [mkImageSize 100 None] (mkImageSize 320 None)
                                 eq_refl eq_refl eq_refl)))).
Defined.

Section ConfigRemove.
Context {num : Type} `{JsNumberEq num}.
Implicit Types (σ : Store num) (this : ImageProcessingConfig).

Lemma removeSize_kept σ (w : num) elems : ∀ held v,
  mapM (λ o, size ← objects σ !! o; Some (o, size)) elems = Some held →
  mapM (λ o, objects σ !! o) elems = Some v →
  mapM (λ o, objects σ !! o)
    (filter (λ p, num_strict_eq (width p.2) w = false) held).*1
  = Some (filter (λ size, num_strict_eq (width size) w = false) v).
Proof.
  induction elems as [|o elems IH]; intros held v.
  - by intros [= <-] [= <-].
  - intros Hheld%mapM_Some Hv%mapM_Some.
    apply Forall2_cons_inv_l in Hheld as (p & held' & Hp & Hheld%mapM_Some & ->).
    apply Forall2_cons_inv_l in Hv as (size & v' & Hsize & Hv%mapM_Some & ->).
    rewrite Hsize in Hp. simpl in Hp. injection Hp as <-.
    specialize (IH _ _ Hheld Hv).
    rewrite !filter_cons. simpl.
    destruct (decide (num_strict_eq (width size) w = false)); [|done].
    rewrite fmap_cons. simpl. rewrite Hsize. simpl. by rewrite IH.
Qed.

(** X11.  removeSize drops every size of the given width, keeps the
    others in order, and does so in a new array: no array that existed is
    changed, so the caller's array a configuration was built on still has
    the removed sizes.  When no size has that width (none is [===] to it)
    [config.sizes] reads as before. *)
Theorem removeSize_filters this (w : num) σ this' σ' v :
  removeSize this w σ = Some (this', σ') →
  read_sizes this σ = Some v →
  read_sizes this' σ'
  = Some (filter (λ size, num_strict_eq (width size) w = false) v)
  ∧ (∀ a, is_Some (arrays σ !! a) → array_value a σ' = array_value a σ)
  ∧ (Forall (λ size, num_strict_eq (width size) w = false) v →
     read_sizes this' σ' = Some v).
Proof.
  unfold removeSize. intros Hrm Hv. rewrite read_sizes_value in Hv.
  unfold array_value in Hv.
  destruct (arrays σ !! _sizes this) as [elems|] eqn:Hs; simpl in *; [|done].
  destruct (mapM _ elems) as [held|] eqn:Hheld; simpl in Hrm; [|done].
  injection Hrm as <- <-.
  assert (read_sizes
            (mkConfig (fresh (dom (arrays σ))))
            (alloc_array
               (filter (λ p, num_strict_eq (width p.2) w = false) held).*1 σ).2
          = Some (filter (λ size, num_strict_eq (width size) w = false) v)) as Hread.
  { rewrite read_sizes_value. unfold array_value. simpl.
    rewrite lookup_insert_eq. simpl. by apply removeSize_kept with elems. }
  split; [done|]. split.
  - intros a [elems' Ha]. unfold array_value. simpl.
    rewrite lookup_insert_ne; [done|]. by apply fresh_array_ne with elems'.
  - intros Hall. etrans; [exact Hread|]. f_equal. clear -Hall.
    induction Hall as [|size v Hsize _ IH]; [done|].
    by rewrite filter_cons_True, IH.
Qed.

(** The two equalities agree with equality of numbers (as they do on
    every number but NaN). *)
Hypothesis strict_eq_spec : ∀ a b : num, num_strict_eq a b = true ↔ a = b.
Hypothesis same_value_zero_spec : ∀ a b : num, num_same_value_zero a b = true ↔ a = b.

Lemma includes_num_elem (arr : list num) x : includes_num arr x = true ↔ x ∈ arr.
Proof.
  unfold includes_num. rewrite existsb_exists. split.
  - intros (y & Hy%list_elem_of_In & ->%same_value_zero_spec). done.
  - intros Hx%list_elem_of_In. exists x. split; [done|].
    by apply same_value_zero_spec.
Qed.

Lemma removeDPRRatio_elem (ratios : list num) ratio r :
  r ∈ removeDPRRatio ratios ratio ↔ r ≠ ratio ∧ r ∈ ratios.
Proof.
  unfold removeDPRRatio. rewrite list_elem_of_filter.
  split; intros [Hne Hin]; (split; [|done]).
  - intros Heq. apply strict_eq_spec in Heq. congruence.
  - destruct (num_strict_eq r ratio) eqn:E; [|done].
    by apply strict_eq_spec in E.
Qed.

(** X12.  The dpr ratios behave as a duplicate-free sequence under
    addDPRRatio and removeDPRRatio: adding a ratio already present changes
    nothing, adding a new one puts it last, so adding keeps the ratios free
    of duplicates and adding twice is adding once; removing a ratio leaves
    none of it and keeps the others, removing an absent ratio changes
    nothing, and removing a ratio just added to ratios that lacked it gives
    those ratios back. *)
Theorem dpr_ratios_discipline (ratios : list num) (ratio : num) :
  (ratio ∈ ratios → addDPRRatio ratios ratio = ratios)
  ∧ (ratio ∉ ratios → addDPRRatio ratios ratio = ratios ++ [ratio])
  ∧ (NoDup ratios → NoDup (addDPRRatio ratios ratio))
  ∧ addDPRRatio (addDPRRatio ratios ratio) ratio = addDPRRatio ratios ratio
  ∧ (∀ r, r ∈ removeDPRRatio ratios ratio ↔ r ≠ ratio ∧ r ∈ ratios)
  ∧ (ratio ∉ ratios → removeDPRRatio ratios ratio = ratios)
  ∧ (ratio ∉ ratios → removeDPRRatio (addDPRRatio ratios ratio) ratio = ratios).
Proof.
  assert (ratio ∈ ratios → addDPRRatio ratios ratio = ratios) as Hin.
  { intros Hr%includes_num_elem. unfold addDPRRatio. by rewrite Hr. }
  assert (ratio ∉ ratios → addDPRRatio ratios ratio = ratios ++ [ratio]) as Hout.
  { intros Hr. unfold addDPRRatio.
    destruct (includes_num ratios ratio) eqn:E; [|done].
    by apply includes_num_elem in E. }
  assert (∀ l : list num, ratio ∉ l → removeDPRRatio l ratio = l) as Habsent.
  { intros l Hl. unfold removeDPRRatio.
    induction l as [|r l IH]; [done|].
    apply not_elem_of_cons in Hl as [Hne Hl].
    rewrite filter_cons_True, IH; [done | done |].
    destruct (num_strict_eq r ratio) eqn:E; [|done].
    apply strict_eq_spec in E. congruence. }
  split; [done|]. split; [done|]. split; [|split; [|split; [|split]]].
  - intros Hnd. destruct (includes_num ratios ratio) eqn:E;
      [apply includes_num_elem in E as Hr
      |assert (ratio ∉ ratios) as Hr by (intros Hr%includes_num_elem; congruence)].
    + by rewrite Hin.
    + rewrite Hout by done. apply NoDup_app. split; [done|].
      split; [|apply NoDup_singleton].
      intros r Hr1 Hr2%list_elem_of_singleton. congruence.
  - destruct (includes_num ratios ratio) eqn:E;
      [apply includes_num_elem in E as Hr
      |assert (ratio ∉ ratios) as Hr by (intros Hr%includes_num_elem; congruence)].
    + by rewrite !Hin.
    + rewrite Hout by done. unfold addDPRRatio at 1.
      assert (includes_num (ratios ++ [ratio]) ratio = true) as ->; [|done].
      apply includes_num_elem, elem_of_app. right. by left.
  - apply removeDPRRatio_elem.
  - apply Habsent.
  - intros Hr. rewrite Hout by done. unfold removeDPRRatio.
    rewrite filter_app. fold (removeDPRRatio ratios ratio). rewrite Habsent by done.
    rewrite filter_cons_False, filter_nil, app_nil_r; [done|].
    intros Hne. assert (num_strict_eq ratio ratio = true) by by apply strict_eq_spec.
    congruence.
Qed.

End ConfigRemove.

Lemma removeSize_filters_witness :
  ∃ this' σ',
    removeSize (new_config Mock.caller_array) 100 Mock.caller_store = Some (this', σ')
    ∧ read_sizes this' σ' = Some []
    ∧ array_value Mock.caller_array σ' = Some [mkImageSize 100 None].
Proof.
  eexists _, _. split; [reflexivity|].
  destruct (removeSize_filters (new_config Mock.caller_array) 100 Mock.caller_store
              _ _ [mkImageSize 100 None] eq_refl eq_refl) as (Hread & Hold & _).
  split; [exact Hread|].
  rewrite (Hold Mock.caller_array); [reflexivity | by eexists].
Defined.

(** The default ratios [1, 2, 3]: [addDPRRatio(2)] then [removeDPRRatio(4)]
    after [addDPRRatio(4)]. *)
Lemma dpr_ratios_discipline_witness :
  addDPRRatio [1; 2; 3] 2 = [1; 2; 3]
  ∧ removeDPRRatio (addDPRRatio [1; 2; 3] 4) 4 = [1; 2; 3].
Proof.
  destruct (@dpr_ratios_discipline Z JsNumberEq_Z Z.eqb_eq Z.eqb_eq [1; 2; 3] 2)
    as (Hin & _).
  destruct (@dpr_ratios_discipline Z JsNumberEq_Z Z.eqb_eq Z.eqb_eq [1; 2; 3] 4)
    as (_ & _ & _ & _ & _ & _ & Hround).
  split.
  - apply Hin. right. by left.
  - apply Hround. intros Hin4.
    repeat (apply elem_of_cons in Hin4 as [Hin4|Hin4]; [discriminate|]).
    by apply elem_of_nil in Hin4.
Defined.

(** ** The original is never overwritten *)

Section OriginalSafe.
Context {num : Type} `{JsNumber num}.

Lemma format_key_no_dot t : contains "." (format_key t) = false.
Proof. by destruct t. Qed.

Lemma append_assoc a b c : (a +:+ b) +:+ c = a +:+ (b +:+ c).
Proof. induction a as [|x a IH]; [done|]. by rewrite !append_cons, IH. Qed.

(** X13.  A variant name is never the path of the original: with a uuid
    free of 'x' and '.', as a version-4 uuid is, no width, format type or
    ratio makes generateFileName give
    "/uploads/originals/<uuid><extension>". *)
Theorem variant_name_is_not_original (originalName uuid : string) (w d : num)
    (t : FormatType) :
  contains "x" uuid = false → contains "." uuid = false →
  generateFileName originalName w (format_key t) (Some d)
  ≠ "/uploads/originals" +:+ "/" +:+ uuid +:+ getFileExtension originalName.
Proof.
  intros Hx Hdot Heq. apply (f_equal getBaseName) in Heq.
  apply (f_equal (contains "x")) in Heq.
  unfold generateFileName in Heq.
  change ("x." +:+ format_key t) with ("x" +:+ String "." (format_key t)) in Heq.
  rewrite <- !append_assoc in Heq.
  rewrite getBaseName_strips in Heq by apply format_key_no_dot.
  rewrite !contains_append in Heq. simpl in Heq. rewrite !orb_true_r in Heq.
  assert (contains "x" ("/uploads/originals/" +:+ uuid) = false) as Hprefix
    by by rewrite contains_append, Hx.
  destruct (contains "." originalName) eqn:Hname.
  - destruct (last_occurrence _ _ Hname) as (b & e & -> & He).
    rewrite (getFileExtension_last _ _ He) in Heq.
    change ("/uploads/originals" +:+ "/") with "/uploads/originals/" in Heq.
    rewrite (getBaseName_strips _ _ He), Hprefix in Heq. done.
  - rewrite (getFileExtension_none _ Hname), append_nil_r in Heq.
    change ("/uploads/originals" +:+ "/") with "/uploads/originals/" in Heq.
    rewrite getBaseName_whole, Hprefix in Heq; [done|].
    by rewrite contains_append, Hdot.
Qed.

End OriginalSafe.

Lemma variant_name_is_not_original_witness :
  generateFileName (num:=Z) "pic.webp" 320 (format_key webp) (Some 1)
  ≠ "/uploads/originals" +:+ "/" +:+ "3f2b8c1e-7d4a-4c6b-9e0f-5a1d2c3b4e6f"
    +:+ getFileExtension "pic.webp".
Proof.
  apply (variant_name_is_not_original (num:=Z)); reflexivity.
Defined.

Section OriginalKept.
Context {num : Type} `{JsNumber num} {World : Type}.
Variable deps : Collaborators num World.

(** X14.  Within a call that resolves, the path of the original is
    written once: when the uuid drawn has no 'x' and no '.', none of the
    uploads that follow the original's goes to the original's path. *)
Theorem original_written_once (config : ConfigView num) buffer fn mime max
    (s : PipeState num World) w1 uuid w2 answered w3 :
  validateFile buffer fn mime max = Normal tt →
  imageProcessor_validateImage deps buffer (world s) = (Normal true, w1) →
  uuidv4 deps w1 = (uuid, w2) →
  contains "x" uuid = false → contains "." uuid = false →
  let originalPath := "/uploads/originals" +:+ "/" +:+ uuid +:+ getFileExtension fn in
  storageDriver_upload deps originalPath buffer w2 = (Fulfilled answered, w3) →
  ∃ r s' later,
    processImage deps config buffer fn mime max s = (Normal r, s')
    ∧ calls s' = calls s ++ [CallValidateImage buffer; CallUuid;
                             CallUpload originalPath buffer] ++ later
    ∧ Forall (λ c, ∀ data, c ≠ CallUpload originalPath data) later.
Proof.
  intros Hv Hvalid Huuid Hx Hdot originalPath Hup.
  pose proof (store_original_run _ _ _ _ _ _ _ _ _ _ _ Hv Hvalid Huuid Hup) as Hstore.
  fold originalPath in Hstore.
  destruct (settle_log deps buffer fn (combinations config) (combinations config)
              (mkPipeState w3 (calls s ++ [CallValidateImage buffer; CallUuid;
                                           CallUpload originalPath buffer])))
    as (later & Hcalls & Hfor & _); [done|].
  eexists _, _, later. split; [by apply processImage_stored|].
  split; [simpl in *; by rewrite Hcalls, <- app_assoc|].
  eapply Forall_impl; [exact Hfor|].
  intros c Hc data ->. destruct Hc as (_ & t & _ & Hpath).
  symmetry in Hpath. by apply variant_name_is_not_original in Hpath.
Qed.

End OriginalKept.

Lemma original_written_once_witness :
  ∃ r s' later,
    processImage (Mock.deps Mock.ok2 Mock.ok1) Mock.example_config
      (Some Mock.jpg_bytes) "pic.jpg" None None Mock.start = (Normal r, s')
    ∧ calls s' = [CallValidateImage (Some Mock.jpg_bytes); CallUuid;
                  CallUpload "/uploads/originals/uuid0.jpg" (Some Mock.jpg_bytes)]
                 ++ later
    ∧ Forall (λ c, ∀ data, c ≠ CallUpload "/uploads/originals/uuid0.jpg" data) later.
Proof.
  exact (original_written_once (Mock.deps Mock.ok2 Mock.ok1) Mock.example_config
           (Some Mock.jpg_bytes) "pic.jpg" None None Mock.start
           (Mock.mkWorld ∅ 0) "uuid0" (Mock.mkWorld ∅ 1)
           "/uploads/originals/uuid0.jpg"
           (Mock.mkWorld {[ "/uploads/originals/uuid0.jpg" := Some Mock.jpg_bytes ]} 1)
           eq_refl eq_refl eq_refl eq_refl eq_refl eq_refl).
Defined.

(** ** ImageProcessorService *)

Section ProcessorFacts.
Context {num : Type} `{JsNumber num} {World : Type}.
Variable sharp : Sharp num World.

(** X15.  ImageProcessorService.processImage rejects with an
    ImageProcessingFailedError and nothing else: what sharp throws while
    encoding or while reading the result's metadata comes out wrapped, the
    message prefixed with 'Failed to process image: ' and the error kept as
    originalError (an ImageProcessingFailedError would be passed on as it
    is).  When it resolves, both sharp calls have succeeded -- the encoding
    asked at the given width, at the given height only if that is truthy,
    at the given quality or 80 -- and the buffer returned is sharp's. *)
Theorem processor_rejects_with_processing_failed (buffer : option Buffer)
    (size : ImageSize num) (format : ImageFormat num) (w : World) :
  match ImageProcessorService_processImage sharp buffer size format w with
  | (Throw error, _) =>
      instanceof error C_ImageProcessingFailedError = true
      ∧ ∃ cause,
          ((sharp_toBuffer sharp buffer (width size) (truthy_or_null (height size))
              (type format) (or_num (quality format) (num_of_Z 80)) w).1
           = Throw cause
           ∨ ∃ encoded w1,
               sharp_toBuffer sharp buffer (width size)
                 (truthy_or_null (height size)) (type format)
                 (or_num (quality format) (num_of_Z 80)) w
               = (Normal encoded, w1)
               ∧ (sharp_metadata sharp (Some encoded) w1).1 = Throw cause)
          ∧ error = (if instanceof cause C_ImageProcessingFailedError then cause
                     else ImageProcessingFailedError
                            ("Failed to process image: " +:+ message cause)
                            (Some cause))
  | (Normal processed, w') =>
      ∃ w1 metadata,
        sharp_toBuffer sharp buffer (width size) (truthy_or_null (height size))
          (type format) (or_num (quality format) (num_of_Z 80)) w
        = (Normal (p_buffer processed), w1)
        ∧ sharp_metadata sharp (Some (p_buffer processed)) w1 = (Normal metadata, w')
  end.
Proof.
  unfold ImageProcessorService_processImage, io_try.
  unfold mbind, IO_bind, io_bind.
  destruct (sharp_toBuffer sharp buffer (width size) (truthy_or_null (height size))
              (type format) (or_num (quality format) (num_of_Z 80)) w)
    as [[encoded|cause] w1] eqn:Hencode.
  - destruct (sharp_metadata sharp (Some encoded) w1) as [[metadata|cause] w2]
      eqn:Hmeta; simpl.
    + by exists w1, metadata.
    + destruct (instanceof cause C_ImageProcessingFailedError) eqn:Hcls; simpl.
      * split; [done|]. exists cause. split; [|by rewrite Hcls].
        right. exists encoded, w1. by rewrite Hmeta.
      * split; [done|]. exists cause. split; [|by rewrite Hcls].
        right. exists encoded, w1. by rewrite Hmeta.
  - simpl. destruct (instanceof cause C_ImageProcessingFailedError) eqn:Hcls; simpl.
    + split; [done|]. exists cause. split; [by left | by rewrite Hcls].
    + split; [done|]. exists cause. split; [by left | by rewrite Hcls].
Qed.

(** ImageProcessorService.validateImage never rejects: it answers true
    when sharp reads the buffer's metadata and false when sharp throws. *)
Lemma validateImage_never_rejects (buffer : option Buffer) (w : World) :
  validateImage sharp buffer w
  = (Normal (match (sharp_metadata sharp buffer w).1 with
             | Normal _ => true
             | Throw _ => false
             end),
     (sharp_metadata sharp buffer w).2).
Proof.
  unfold validateImage, io_try. unfold mbind, mret, IO_bind, IO_ret, io_bind, io_ret.
  by destruct (sharp_metadata sharp buffer w) as [[metadata|cause] w1].
Qed.

Variable upload : string → option Buffer → World → Settled string * World.
Variable uuid : World → string * World.

Lemma processor_error_class buffer (size : ImageSize num) format (w : World)
    error w' :
  ImageProcessorService_processImage sharp buffer size format w = (Throw error, w') →
  instanceof error C_ImageProcessingFailedError = true.
Proof.
  unfold ImageProcessorService_processImage, io_try.
  unfold mbind, IO_bind, io_bind.
  destruct (sharp_toBuffer sharp buffer (width size) (truthy_or_null (height size))
              (type format) (or_num (quality format) (num_of_Z 80)) w)
    as [[encoded|cause] w1].
  - destruct (sharp_metadata sharp (Some encoded) w1) as [[metadata|cause] w2];
      simpl; [done|].
    destruct (instanceof cause C_ImageProcessingFailedError) eqn:Hcls;
      by intros [= <- <-].
  - simpl. destruct (instanceof cause C_ImageProcessingFailedError) eqn:Hcls;
      by intros [= <- <-].
Qed.

Lemma with_sharp_task_errors buffer fn (t : Tuple) (s : PipeState num World) error :
  (variant_task (with_sharp sharp upload uuid) buffer fn t s).1 = Throw error →
  instanceof error C_ImageProcessingFailedError = true
  ∨ instanceof error C_StorageError = true
  ∨ ∃ name data w reason,
      (upload name data w).1 = Rejected reason
      ∧ reason_message reason = Throw error.
Proof.
  destruct t as [[size fmt] d]. unfold variant_task. rewrite bind_run.
  unfold call_processImage. simpl.
  destruct (ImageProcessorService_processImage sharp buffer (actualSize size d) fmt
              (world s)) as [[p|e] w1] eqn:Hp; simpl.
  - unfold uploadFile, try_await, call_upload. simpl.
    destruct (upload _ _ w1) as [[path|[e| |]] w2] eqn:Hup; simpl; [done| | |].
    + intros [= <-]. right. by left.
    + intros [= <-]. right. right. eexists _, _, w1, ReasonNull.
      by rewrite Hup.
    + intros [= <-]. right. right. eexists _, _, w1, ReasonUndefined.
      by rewrite Hup.
  - intros [= <-]. left. by eapply processor_error_class.
Qed.

End ProcessorFacts.

Section WithProcessor.
Context {num : Type} `{JsNumber num} {World : Type}.
Variable sharp : Sharp num World.
Variable upload : string → option Buffer → World → Settled string * World.
Variable uuid : World → string * World.

Lemma with_sharp_logged buffer fn (tuples : list Tuple) : ∀ s : PipeState num World,
  ∃ new,
    calls (settle (with_sharp sharp upload uuid) buffer fn tuples s).2
    = calls s ++ new
    ∧ Forall (λ c, ∀ msg error, c = CallConsoleError msg error →
                 instanceof error C_ImageProcessingFailedError = true
                 ∨ instanceof error C_StorageError = true
                 ∨ ∃ name data w reason,
                     (upload name data w).1 = Rejected reason
                     ∧ reason_message reason = Throw error) new.
Proof.
  induction tuples as [|t tuples IH]; intros s.
  - exists []. by rewrite app_nil_r.
  - cbn [settle].
    destruct (task_calls_shape (with_sharp sharp upload uuid) buffer fn t s)
      as (rest & Hcalls & Hrest).
    pose proof (with_sharp_task_errors sharp upload uuid buffer fn t s) as Herr.
    destruct (variant_task (with_sharp sharp upload uuid) buffer fn t s)
      as [o s1]. simpl in Hcalls, Herr.
    set (s2 := match o with
               | Normal _ => s1
               | Throw error => (variant_failed t.1.1 t.1.2 t.2 error s1).2
               end).
    assert (∃ logged, calls s2 = calls s1 ++ logged
                      ∧ Forall (λ c, ∀ msg error, c = CallConsoleError msg error →
                                  instanceof error C_ImageProcessingFailedError = true
                                  ∨ instanceof error C_StorageError = true
                                  ∨ ∃ name data w reason,
                                      (upload name data w).1 = Rejected reason
                                      ∧ reason_message reason = Throw error) logged)
      as (lg & Hlg & Htyped).
    { destruct o as [path|e]; [exists []; by rewrite app_nil_r|].
      eexists [_]. split; [done|]. constructor; [|done].
      intros m0 e0 [= _ <-]. by apply Herr. }
    destruct (IH s2) as (new & Hnew & Hfor).
    destruct (settle (with_sharp sharp upload uuid) buffer fn tuples s2)
      as [outcomes s3].
    simpl in *. eexists (_ :: rest ++ lg ++ new). split.
    + rewrite Hnew, Hlg, Hcalls. by rewrite <- !app_assoc.
    + constructor; [done|]. apply Forall_app. split; [|by apply Forall_app].
      destruct Hrest as [-> | [data ->]]; [done|]. by repeat constructor.
Qed.

(** X16.  The pipeline over the library's own ImageProcessorService.  A
    buffer that passes validateFile but whose metadata sharp cannot read is
    rejected with the ImageProcessingFailedError 'Invalid image file' after
    the single validateImage call -- sharp's error is not what the caller
    sees.  And in a call that stored its original, an error logged for a
    skipped tuple is an ImageProcessingFailedError (the transform), a
    StorageError (the upload), or what reading [message] threw on a
    rejection of the storage with [null] or [undefined]; with a storage that
    rejects with errors only, it is one of the first two. *)
Theorem pipeline_over_processor (config : ConfigView num) buffer fn mime max
    (s : PipeState num World) :
  (validateFile buffer fn mime max = Normal tt →
   ∀ cause, (sharp_metadata sharp buffer (world s)).1 = Throw cause →
     processImage (with_sharp sharp upload uuid) config buffer fn mime max s
     = (Throw (ImageProcessingFailedError "Invalid image file" None),
        mkPipeState (sharp_metadata sharp buffer (world s)).2
          (calls s ++ [CallValidateImage buffer])))
  ∧ (∀ path s1,
       store_original (with_sharp sharp upload uuid) buffer fn mime max s
       = (Normal path, s1) →
       ∃ later,
         calls (processImage (with_sharp sharp upload uuid) config buffer fn
                  mime max s).2 = calls s1 ++ later
         ∧ Forall (λ c, ∀ msg error, c = CallConsoleError msg error →
                      instanceof error C_ImageProcessingFailedError = true
                      ∨ instanceof error C_StorageError = true
                      ∨ ∃ name data w reason,
                          (upload name data w).1 = Rejected reason
                          ∧ reason_message reason = Throw error) later
         ∧ ((∀ name data w reason,
               (upload name data w).1 = Rejected reason →
               ∃ e, reason = ReasonError e) →
            Forall (λ c, ∀ msg error, c = CallConsoleError msg error →
                         instanceof error C_ImageProcessingFailedError = true
                         ∨ instanceof error C_StorageError = true) later)).
Proof.
  split.
  - intros Hv cause Hmeta. rewrite processImage_run. unfold processImage_try.
    rewrite bind_run. unfold sync. rewrite Hv.
    rewrite bind_run. unfold call_validateImage. simpl.
    unfold validateImage, io_try. unfold mbind, mret, IO_bind, IO_ret, io_bind, io_ret.
    destruct (sharp_metadata sharp buffer (world s)) as [[metadata|e] w1];
      simpl in *; [done|]. done.
  - intros path s1 Hstore. rewrite (processImage_stored _ _ _ _ _ _ _ _ _ Hstore).
    cbn [snd].
    destruct (with_sharp_logged buffer fn (combinations config) s1)
      as (later & Hcalls & Hlogged).
    exists later. split; [done|]. split; [done|].
    intros Herrors. eapply Forall_impl; [exact Hlogged|].
    intros c Hc msg error ->.
    destruct (Hc _ _ eq_refl) as [?|[?|(name & data & w & reason & Hup & Hmsg)]];
      [by left | by right |].
    destruct (Herrors _ _ _ _ Hup) as [e ->]. done.
Qed.

End WithProcessor.

Lemma processor_rejects_with_processing_failed_witness :
  ImageProcessorService_processImage MockSharp.sharp (Some MockSharp.png_bytes)
    (mkImageSize 320 None) (mkImageFormat webp None) (Mock.mkWorld ∅ 0)
  = (Throw (ImageProcessingFailedError
              "Failed to process image: Input buffer contains unsupported image format"
              (Some MockSharp.unreadable)),
     Mock.mkWorld ∅ 0).
Proof.
  pose proof (processor_rejects_with_processing_failed MockSharp.sharp
                (Some MockSharp.png_bytes) (mkImageSize 320 None)
                (mkImageFormat webp None) (Mock.mkWorld ∅ 0)) as Hcase.
  destruct (ImageProcessorService_processImage _ _ _ _ _) as [[p|e] w'] eqn:Hrun;
    [vm_compute in Hrun; discriminate|].
  destruct Hcase as (_ & cause & _ & _). vm_compute in Hrun. exact (eq_sym Hrun).
Defined.

Lemma pipeline_over_processor_witness :
  processImage MockSharp.deps Mock.default_config (Some MockSharp.png_bytes)
    "fake.jpg" None None Mock.start
  = (Throw (ImageProcessingFailedError "Invalid image file" None),
     mkPipeState (Mock.mkWorld ∅ 0) [CallValidateImage (Some MockSharp.png_bytes)]).
Proof.
  destruct (pipeline_over_processor MockSharp.sharp MockStorage.upload
              (uuidv4 (Mock.deps Mock.ok2 Mock.ok1)) Mock.default_config
              (Some MockSharp.png_bytes) "fake.jpg" None None Mock.start)
    as [Hbad _].
  exact (Hbad eq_refl _ eq_refl).
Defined.

(** ** getImage and deleteImage *)

Section AccessorFacts.
Context {World : Type}.
Variable driver : StorageAccess World.

(** getImage and deleteImage give the driver's answer when it fulfils.
    When it rejects with an error -- a StorageError of its own included --
    they reject with a new StorageError that keeps it as originalError, the
    message prefixed 'Failed to get image: ' or 'Failed to delete image: ';
    when it rejects with [null] or [undefined], with the TypeError of
    reading [message].  Either way the world is as the driver left it. *)
Lemma accessors_reject_with_storage_error (imagePath : string) (w : World) :
  (match storageDriver_download driver imagePath w with
   | (Fulfilled data, w') => getImage driver imagePath w = (Normal data, w')
   | (Rejected reason, w') =>
       getImage driver imagePath w
       = (Throw match reason_message reason with
                | Normal msg =>
                    StorageError ("Failed to get image: " +:+ msg)
                      (reason_as_error reason)
                | Throw thrown => thrown
                end, w')
   end)
  ∧ (match storageDriver_delete driver imagePath w with
     | (Fulfilled _, w') => deleteImage driver imagePath w = (Normal tt, w')
     | (Rejected reason, w') =>
         deleteImage driver imagePath w
         = (Throw match reason_message reason with
                  | Normal msg =>
                      StorageError ("Failed to delete image: " +:+ msg)
                        (reason_as_error reason)
                  | Throw thrown => thrown
                  end, w')
     end).
Proof.
  unfold getImage, deleteImage, io_try_await. split.
  - destruct (storageDriver_download driver imagePath w) as [[data|reason] w'];
      [done | by destruct reason].
  - destruct (storageDriver_delete driver imagePath w) as [[[]|reason] w'];
      [done | by destruct reason].
Qed.

End AccessorFacts.

(** X17.  Over MockStorageDriver, getImage returns what was last uploaded
    under a path and not deleted since: an upload is read back as it was
    written, other paths are not disturbed, a path never written is a
    StorageError ('Failed to get image: File not found'), deleteImage of
    such a path is a StorageError too, and after a successful deleteImage
    the path reads as never written. *)
Theorem mock_storage_round_trip (path other : string) (data : Buffer)
    (w : Mock.World) :
  let written := (MockStorage.upload path (Some data) w).2 in
  let not_found prefix :=
    StorageError (prefix +:+ "File not found")
      (Some (mkJsError C_Error "File not found" None None)) in
  (MockStorage.upload path (Some data) w).1 = Fulfilled path
  ∧ getImage MockStorage.driver path written = (Normal data, written)
  ∧ (other ≠ path →
     getImage MockStorage.driver other written
     = ((getImage MockStorage.driver other w).1, written))
  ∧ (Mock.files w !! path = None →
     getImage MockStorage.driver path w = (Throw (not_found "Failed to get image: "), w)
     ∧ deleteImage MockStorage.driver path w
       = (Throw (not_found "Failed to delete image: "), w))
  ∧ ∃ deleted,
      deleteImage MockStorage.driver path written = (Normal tt, deleted)
      ∧ getImage MockStorage.driver path deleted
        = (Throw (not_found "Failed to get image: "), deleted)
      ∧ (Mock.files w !! path = None → deleted = w).
Proof.
  intros written not_found.
  unfold getImage, deleteImage, io_try_await, MockStorage.driver, MockStorage.download,
    MockStorage.delete, MockStorage.upload in *. simpl in *.
  split; [done|]. split; [by rewrite lookup_insert_eq|]. split; [|split].
  - intros Hne. rewrite lookup_insert_ne by done.
    by destruct (Mock.files w !! other) as [[d|]|].
  - intros Hnone. by rewrite Hnone.
  - rewrite lookup_insert_eq. eexists. split; [done|]. simpl.
    rewrite lookup_delete_eq. split; [done|].
    intros Hnone. destruct w as [files counter]. simpl in *. f_equal.
    rewrite delete_insert_eq. by apply delete_id.
Qed.

Lemma mock_storage_round_trip_witness :
  getImage MockStorage.driver "a.webp"
    (MockStorage.upload "a.webp" (Some Mock.processed) (Mock.mkWorld ∅ 0)).2
  = (Normal Mock.processed,
     (MockStorage.upload "a.webp" (Some Mock.processed) (Mock.mkWorld ∅ 0)).2)
  ∧ deleteImage MockStorage.driver "nonexistent.jpg" (Mock.mkWorld ∅ 0)
    = (Throw (StorageError "Failed to delete image: File not found"
                (Some (mkJsError C_Error "File not found" None None))),
       Mock.mkWorld ∅ 0).
Proof.
  destruct (mock_storage_round_trip "a.webp" "" Mock.processed (Mock.mkWorld ∅ 0))
    as (_ & Hread & _ & _ & _).
  destruct (mock_storage_round_trip "nonexistent.jpg" "" Mock.processed
              (Mock.mkWorld ∅ 0)) as (_ & _ & _ & Habsent & _).
  split; [exact Hread | exact (proj2 (Habsent eq_refl))].
Defined.

(** ** The configured formats and the keys of [generated] *)

Section FormatsAndKeys.
Context {num : Type} `{JsNumber num} {World : Type}.
Variable deps : Collaborators num World.

Lemma format_keys_removeFormat (fmts : list (ImageFormat num)) t key :
  key ∈ format_keys (removeFormat fmts t)
  ↔ key ≠ format_key t ∧ key ∈ format_keys fmts.
Proof.
  unfold format_keys, removeFormat. rewrite !list_elem_of_fmap. split.
  - intros (f & -> & [Hne Hf]%list_elem_of_filter). split; [|by exists f].
    intros Heq%format_key_inj. done.
  - intros (Hne & f & -> & Hf). exists f. split; [done|].
    apply list_elem_of_filter. split; [|done]. intros Heq. apply Hne.
    by rewrite Heq.
Qed.

(** X18.  The keys of [generated] are the configured format types and no
    other.  So a call made after removeFormat(t) returns no key for t and a
    key for every other type that was configured, whatever happens to the
    variants; and a call made after addFormat of a format of type t returns
    a key for t. *)
Theorem generated_keys_follow_formats (szs : list (ImageSize num))
    (fmts : list (ImageFormat num)) (rts : list num) (t : FormatType)
    (q : option num) buffer fn mime max (s : PipeState num World) path s1 :
  store_original deps buffer fn mime max s = (Normal path, s1) →
  (∀ config, ∃ r s',
     processImage deps config buffer fn mime max s = (Normal r, s')
     ∧ ∀ key, is_Some (generated r !! key) ↔ key ∈ format_keys (formats config))
  ∧ (∃ r s',
       processImage deps (mkConfigView szs (removeFormat fmts t) rts)
         buffer fn mime max s = (Normal r, s')
       ∧ generated r !! format_key t = None
       ∧ ∀ key, key ≠ format_key t →
           (is_Some (generated r !! key) ↔ key ∈ format_keys fmts))
  ∧ (∃ r s',
       processImage deps (mkConfigView szs (addFormat fmts (mkImageFormat t q)) rts)
         buffer fn mime max s = (Normal r, s')
       ∧ is_Some (generated r !! format_key t)).
Proof.
  intros Hstore.
  assert (∀ config, ∃ r s',
            processImage deps config buffer fn mime max s = (Normal r, s')
            ∧ ∀ key, is_Some (generated r !! key)
                     ↔ key ∈ format_keys (formats config)) as Hkeys.
  { intros config. eexists _, _. split; [by apply processImage_stored|].
    intros key. simpl. rewrite collect_generated_lookup.
    destruct (decide (key ∈ format_keys (formats config))) as [Hin|Hout].
    - rewrite bool_decide_true by done. split; [done | by eexists].
    - rewrite bool_decide_false by done. split; [by intros [? ?] | done]. }
  split; [done|]. split.
  - destruct (Hkeys (mkConfigView szs (removeFormat fmts t) rts))
      as (r & s' & Hrun & Hdom).
    exists r, s'. split; [done|]. simpl in Hdom. split.
    + apply eq_None_not_Some. rewrite Hdom, format_keys_removeFormat. by intros [].
    + intros key Hne. rewrite Hdom, format_keys_removeFormat. tauto.
  - destruct (Hkeys (mkConfigView szs (addFormat fmts (mkImageFormat t q)) rts))
      as (r & s' & Hrun & Hdom).
    exists r, s'. split; [done|]. apply Hdom. simpl.
    unfold format_keys, addFormat. rewrite fmap_app. apply elem_of_app. right.
    by left.
Qed.

End FormatsAndKeys.

(** The defaults without avif: a key for webp, none for avif. *)
Lemma generated_keys_follow_formats_witness :
  ∃ r s',
    processImage (Mock.deps Mock.ok2 Mock.ok1)
      (mkConfigView (sizes Mock.default_config)
         (removeFormat (formats Mock.default_config) avif)
         (ratios Mock.default_config))
      (Some Mock.jpg_bytes) "pic.jpg" None None Mock.start = (Normal r, s')
    ∧ generated r !! "avif" = None
    ∧ is_Some (generated r !! "webp").
Proof.
  destruct (generated_keys_follow_formats (Mock.deps Mock.ok2 Mock.ok1)
              (sizes Mock.default_config) (formats Mock.default_config)
              (ratios Mock.default_config) avif None
              (Some Mock.jpg_bytes) "pic.jpg" None None Mock.start
              "/uploads/originals/uuid0.jpg"
              (store_original (Mock.deps Mock.ok2 Mock.ok1)
                 (Some Mock.jpg_bytes) "pic.jpg" None None Mock.start).2
              eq_refl)
    as (_ & (r & s' & Hrun & Hnone & Hother) & _).
  exists r, s'. split; [exact Hrun|]. split; [exact Hnone|].
  apply (Hother "webp"); [discriminate|]. vm_compute. by left.
Defined.

(** ** The call log on the mocks *)

Lemma undecodable_image_rejected_witness :
  processImage MockSharp.deps Mock.default_config (Some MockSharp.png_bytes)
    "fake.jpg" None None Mock.start
  = (Throw (ImageProcessingFailedError "Invalid image file" None),
     mkPipeState (Mock.mkWorld ∅ 0) [CallValidateImage (Some MockSharp.png_bytes)]).
Proof.
  destruct (undecodable_image_rejected MockSharp.deps Mock.default_config
              (Some MockSharp.png_bytes) "fake.jpg" None None Mock.start eq_refl)
    as [Hfalse _].
  exact (Hfalse (Mock.mkWorld ∅ 0) eq_refl).
Defined.

Lemma resolving_call_log_witness :
  ∃ r s' later,
    processImage (Mock.deps Mock.ok2 Mock.ok1) Mock.example_config
      (Some Mock.jpg_bytes) "pic.JPG" None None Mock.start = (Normal r, s')
    ∧ original r = "/uploads/originals/uuid0.JPG"
    ∧ calls s' = [CallValidateImage (Some Mock.jpg_bytes); CallUuid;
                  CallUpload "/uploads/originals/uuid0.JPG" (Some Mock.jpg_bytes)]
                 ++ later
    ∧ Forall (variant_call (Some Mock.jpg_bytes) "pic.JPG"
                (combinations Mock.example_config)) later.
Proof.
  exact (resolving_call_log (Mock.deps Mock.ok2 Mock.ok1) Mock.example_config
           (Some Mock.jpg_bytes) "pic.JPG" None None Mock.start
           (Mock.mkWorld ∅ 0) "uuid0" (Mock.mkWorld ∅ 1)
           "/uploads/originals/uuid0.JPG"
           (Mock.mkWorld {[ "/uploads/originals/uuid0.JPG" := Some Mock.jpg_bytes ]} 1)
           eq_refl eq_refl eq_refl eq_refl).
Defined.

(** The failure of (640, avif, 2): one logged error, five avif entries. *)
Lemma every_tuple_accounted_witness :
  ∃ r s' (later : list (Call Z)),
    processImage (Mock.deps Mock.fails_640_avif_2 Mock.ok1) Mock.example_config
      (Some Mock.jpg_bytes) "pic.jpg" None None Mock.start = (Normal r, s')
    ∧ length (filter is_console_error later) = 1%nat
    ∧ ∃ paths, generated r !! "avif" = Some paths ∧ (length paths + 1 = 6)%nat.
Proof.
  destruct (every_tuple_accounted
              (Mock.deps Mock.fails_640_avif_2 Mock.ok1) Mock.example_config
              (Some Mock.jpg_bytes) "pic.jpg" None None Mock.start
              "/uploads/originals/uuid0.jpg"
              (store_original (Mock.deps Mock.fails_640_avif_2 Mock.ok1)
                 (Some Mock.jpg_bytes) "pic.jpg" None None Mock.start).2
              eq_refl)
    as (r & s' & later & Hrun & _ & Hlogged & Hkeys).
  exists r, s', later. split; [exact Hrun|]. split; [exact Hlogged|].
  destruct (Hkeys "avif") as (paths & Hpaths & Hsum & _);
    [vm_compute; right; by left|].
  exists paths. split; [exact Hpaths | exact Hsum].
Defined.
